(** * Product-CRUD: the product-code generator

    A shallow embedding of [generateProductCode] (the function exported by
    utils/productCodeGen.js and called by [createProduct] in
    routes/post.mjs), together with the properties the catalogue
    specification states about it.

    JavaScript strings are sequences of UTF-16 code units; a code unit is a
    [Z] in the range 0..65535.  JavaScript numbers that hold indices and
    lengths are [Z].  The two library calls of the function are treated as
    follows:
    - [String.prototype.toLowerCase] is a variable of the section that
      contains the function, so every general theorem holds for the real
      Unicode mapping (which may change the length of a string);
    - [crypto.createHash('sha1').update(s).digest('hex')] is written out:
      UTF-8 encoding of the code units followed by SHA-1 (FIPS 180-4). *)

From Equations Require Import Equations.
From Equations.Prop Require Import Logic.
From Stdlib Require Import ZArith List Lia Bool String Ascii DecimalPos Sorted.
Import ListNotations.
Open Scope Z_scope.

Set Default Goal Selector "!".

(** ** JavaScript strings *)

Definition code_unit := Z.
Definition jsstring := list code_unit.

(** [s.length] *)
Definition jslength (s : jsstring) : Z := Z.of_nat (List.length s).

(** [s[i]]: the code unit at index [i], [None] standing for [undefined]. *)
Definition char_at (s : jsstring) (i : Z) : option code_unit :=
  if i <? 0 then None else nth_error s (Z.to_nat i).

(** [a < b] on the results of two index expressions.  Two one-unit strings
    compare by code unit; a comparison with [undefined] is false. *)
Definition js_lt (a b : option code_unit) : bool :=
  match a, b with
  | Some x, Some y => x <? y
  | _, _ => false
  end.

(** [s.slice(from, to)] with the clamping of relative indices that
    String.prototype.slice performs. *)
Definition clamp_index (len k : Z) : Z :=
  if k <? 0 then Z.max (len + k) 0 else Z.min k len.

Definition slice (s : jsstring) (from to : Z) : jsstring :=
  let len := jslength s in
  let a := clamp_index len from in
  let b := clamp_index len to in
  firstn (Z.to_nat (Z.max (b - a) 0)) (skipn (Z.to_nat a) s).

(** A string literal of the source, as code units (Latin-1 literals only). *)
Definition js (s : string) : jsstring :=
  map (fun c => Z.of_nat (nat_of_ascii c)) (list_ascii_of_string s).

(** [String(n)] for an integral number [n], as a template literal inserts
    it: decimal digits, preceded by a minus sign when negative. *)
Fixpoint uint_units (u : Decimal.uint) : jsstring :=
  match u with
  | Decimal.Nil => []
  | Decimal.D0 u => 48 :: uint_units u
  | Decimal.D1 u => 49 :: uint_units u
  | Decimal.D2 u => 50 :: uint_units u
  | Decimal.D3 u => 51 :: uint_units u
  | Decimal.D4 u => 52 :: uint_units u
  | Decimal.D5 u => 53 :: uint_units u
  | Decimal.D6 u => 54 :: uint_units u
  | Decimal.D7 u => 55 :: uint_units u
  | Decimal.D8 u => 56 :: uint_units u
  | Decimal.D9 u => 57 :: uint_units u
  end.

Definition number_to_string (n : Z) : jsstring :=
  match Z.to_int n with
  | Decimal.Pos u => uint_units u
  | Decimal.Neg u => 45 :: uint_units u
  end.

(** ** The hash: [crypto.createHash('sha1').update(s).digest('hex')] *)

(** [update(s)] with a string argument hashes the UTF-8 encoding of [s].
    A surrogate pair encodes the code point it denotes; a surrogate that is
    not part of a pair is encoded as U+FFFD. *)
Definition is_high_surrogate (c : code_unit) : bool :=
  (0xD800 <=? c) && (c <=? 0xDBFF).
Definition is_low_surrogate (c : code_unit) : bool :=
  (0xDC00 <=? c) && (c <=? 0xDFFF).

Definition utf8_code_point (cp : Z) : list Z :=
  if cp <? 0x80 then [cp]
  else if cp <? 0x800 then
    [Z.lor 0xC0 (Z.shiftr cp 6); Z.lor 0x80 (Z.land cp 0x3F)]
  else if cp <? 0x10000 then
    [Z.lor 0xE0 (Z.shiftr cp 12);
     Z.lor 0x80 (Z.land (Z.shiftr cp 6) 0x3F);
     Z.lor 0x80 (Z.land cp 0x3F)]
  else
    [Z.lor 0xF0 (Z.shiftr cp 18);
     Z.lor 0x80 (Z.land (Z.shiftr cp 12) 0x3F);
     Z.lor 0x80 (Z.land (Z.shiftr cp 6) 0x3F);
     Z.lor 0x80 (Z.land cp 0x3F)].

Fixpoint utf8_encode (s : jsstring) : list Z :=
  match s with
  | [] => []
  | c :: rest =>
      if is_high_surrogate c then
        match rest with
        | d :: rest' =>
            if is_low_surrogate d then
              utf8_code_point
                (0x10000 + Z.shiftl (c - 0xD800) 10 + (d - 0xDC00))
              ++ utf8_encode rest'
            else utf8_code_point 0xFFFD ++ utf8_encode rest
        | [] => utf8_code_point 0xFFFD
        end
      else if is_low_surrogate c then
        utf8_code_point 0xFFFD ++ utf8_encode rest
      else utf8_code_point c ++ utf8_encode rest
  end.

Module SHA1.

(** 32-bit words are integers below [2^32]; additions wrap around. *)
Definition wrap (x : Z) : Z := x mod 2 ^ 32.
Definition add32 (x y : Z) : Z := wrap (x + y).
Definition rotl (n x : Z) : Z :=
  wrap (Z.lor (Z.shiftl x n) (Z.shiftr x (32 - n))).
Definition not32 (x : Z) : Z := Z.lxor x 0xFFFFFFFF.

(** Padding: a one bit, zero bits up to 56 modulo 64 bytes, then the
    message length in bits as a 64-bit big-endian integer. *)
Fixpoint big_endian (n : nat) (x : Z) : list Z :=
  match n with
  | O => []
  | S n' => Z.land (Z.shiftr x (8 * Z.of_nat n')) 0xFF :: big_endian n' x
  end.

Definition pad (msg : list Z) : list Z :=
  let len := Z.of_nat (List.length msg) in
  msg ++ [0x80] ++ repeat 0 (Z.to_nat ((55 - len) mod 64))
      ++ big_endian 8 (8 * len).

Fixpoint blocks (n : nat) (bytes : list Z) : list (list Z) :=
  match n with
  | O => []
  | S n' => firstn 64 bytes :: blocks n' (skipn 64 bytes)
  end.

Fixpoint words (n : nat) (bytes : list Z) : list Z :=
  match n, bytes with
  | S n', b0 :: b1 :: b2 :: b3 :: rest =>
      (Z.shiftl b0 24 + Z.shiftl b1 16 + Z.shiftl b2 8 + b3) :: words n' rest
  | _, _ => []
  end.

(** The message schedule: [W t = rotl 1 (W (t-3) xor W (t-8) xor W (t-14)
    xor W (t-16))] for [16 <= t < 80]. *)
Definition word_at (w : list Z) (t : nat) : Z := nth t w 0.

Fixpoint schedule (n : nat) (w : list Z) : list Z :=
  match n with
  | O => w
  | S n' =>
      let t := List.length w in
      let x := Z.lxor (Z.lxor (word_at w (t - 3)) (word_at w (t - 8)))
                      (Z.lxor (word_at w (t - 14)) (word_at w (t - 16))) in
      schedule n' (w ++ [rotl 1 x])
  end.

Definition f (t b c d : Z) : Z :=
  if t <? 20 then Z.lor (Z.land b c) (Z.land (not32 b) d)
  else if t <? 40 then Z.lxor (Z.lxor b c) d
  else if t <? 60 then
    Z.lor (Z.lor (Z.land b c) (Z.land b d)) (Z.land c d)
  else Z.lxor (Z.lxor b c) d.

Definition K (t : Z) : Z :=
  if t <? 20 then 0x5A827999
  else if t <? 40 then 0x6ED9EBA1
  else if t <? 60 then 0x8F1BBCDC
  else 0xCA62C1D6.

Record state := mk_state { A : Z; B : Z; C : Z; D : Z; E : Z }.

Definition round (st : state) (tw : Z * Z) : state :=
  let (t, w) := tw in
  let temp :=
    add32 (add32 (add32 (add32 (rotl 5 (A st)) (f t (B st) (C st) (D st)))
                        (E st)) w) (K t) in
  mk_state temp (A st) (rotl 30 (B st)) (C st) (D st).

Definition numbered (w : list Z) : list (Z * Z) :=
  combine (map Z.of_nat (seq 0 (List.length w))) w.

Definition compress (h : state) (block : list Z) : state :=
  let w := schedule 64 (words 16 block) in
  let r := fold_left round (numbered w) h in
  mk_state (add32 (A h) (A r)) (add32 (B h) (B r)) (add32 (C h) (C r))
           (add32 (D h) (D r)) (add32 (E h) (E r)).

Definition initial : state :=
  mk_state 0x67452301 0xEFCDAB89 0x98BADCFE 0x10325476 0xC3D2E1F0.

Definition digest (msg : list Z) : state :=
  let p := pad msg in
  fold_left compress (blocks (List.length p / 64) p) initial.

(** [digest('hex')]: eight lowercase hexadecimal digits per word. *)
Definition hex_digit (n : Z) : code_unit :=
  if n <? 10 then 48 + n else 87 + n.

Definition hex_word (w : Z) : jsstring :=
  map (fun k => hex_digit (Z.land (Z.shiftr w (4 * k)) 0xF))
      [7; 6; 5; 4; 3; 2; 1; 0].

Definition hex (st : state) : jsstring :=
  hex_word (A st) ++ hex_word (B st) ++ hex_word (C st)
  ++ hex_word (D st) ++ hex_word (E st).

End SHA1.

(** [crypto.createHash('sha1').update(s).digest('hex')] *)
Definition sha1_hex (s : jsstring) : jsstring :=
  SHA1.hex (SHA1.digest (utf8_encode s)).

(** The test vectors of FIPS 180-4 (one block, and two blocks). *)
Example sha1_abc :
  sha1_hex (js "abc") = js "a9993e364706816aba3e25717850c26c9cd0d89d".
Proof. vm_compute. reflexivity. Qed.

Example sha1_two_blocks :
  sha1_hex (js "abcdbcdecdefdefgefghfghighijhijkijkljklmklmnlmnomnopnopq")
  = js "84983e441c3bd26ebaae4aa1f95129e5e54670f1".
Proof. vm_compute. reflexivity. Qed.

(** A name outside Basic Latin: U+00E9 followed by U+1D4B3, the latter a
    surrogate pair; the digest is that of the bytes C3 A9 F0 9D 92 B3. *)
Example sha1_surrogate_pair :
  sha1_hex [0xE9; 0xD835; 0xDCB3]
  = js "67ba1fdaf805e64b8dd424e2c174483ed7012c70".
Proof. vm_compute. reflexivity. Qed.

(** ** The scan *)

(** An element of [substrings]: [{ str, start }]. *)
Record run := mk_run { str : jsstring; start : Z }.

(** The guard of the inner loop:
    [j + 1 < lower.length && lower[j] < lower[j + 1]]. *)
Definition ascends (lower : jsstring) (j : Z) : bool :=
  (j + 1 <? jslength lower) && js_lt (char_at lower j) (char_at lower (j + 1)).

(** [while (j + 1 < lower.length && lower[j] < lower[j + 1]) j++;]
    The result is the value of [j] when the loop exits. *)
Equations? extend_run (lower : jsstring) (j : Z) : Z
  by wf (Z.to_nat (jslength lower - j)) lt :=
  extend_run lower j with inspect (ascends lower j) := {
    | exist _ true _ => extend_run lower (j + 1)
    | exist _ false _ => j }.
Proof.
  unfold ascends in *. apply andb_prop in e. destruct e as [e _].
  apply Z.ltb_lt in e. lia.
Qed.

Lemma extend_run_ge lower j : j <= extend_run lower j.
Proof.
  funelim (extend_run lower j); lia.
Qed.

(** The two branches of the loop body that update [maxLen] and [substrings]:
    [if (len > maxLen) { maxLen = len; substrings = [r]; }
     else if (len === maxLen) substrings.push(r);] *)
Definition record_run (len : Z) (r : run) (maxLen : Z) (substrings : list run)
  : Z * list run :=
  if len >? maxLen then (len, [r])
  else if len =? maxLen then (maxLen, substrings ++ [r])
  else (maxLen, substrings).

(** [for (let i = 0; i < lower.length; i++) { ...; i = j; }], started at
    index [i] with the current [maxLen] and [substrings]; the result is the
    pair of their values when the loop exits. *)
Equations? scan (lower : jsstring) (i : Z) (maxLen : Z) (substrings : list run)
  : Z * list run by wf (Z.to_nat (jslength lower - i)) lt :=
  scan lower i maxLen substrings with inspect (i <? jslength lower) := {
    | exist _ false _ => (maxLen, substrings)
    | exist _ true _ =>
        let j := extend_run lower i in
        let len := j - i + 1 in
        let st := record_run len (mk_run (slice lower i (j + 1)) i)
                    maxLen substrings in
        scan lower (j + 1) (fst st) (snd st) }.
Proof.
  apply Z.ltb_lt in e. pose proof (extend_run_ge lower i). lia.
Qed.

Example scan_cba :
  scan (js "cba") 0 0 [] =
  (1, [mk_run (js "c") 0; mk_run (js "b") 1; mk_run (js "a") 2]).
Proof. reflexivity. Qed.

Example scan_iphone :
  scan (js "iphone") 0 0 [] =
  (2, [mk_run (js "ip") 0; mk_run (js "ho") 2]).
Proof. reflexivity. Qed.

(** ** The generator *)

(** How a call completes: with a string, or by throwing.  The only
    exception the body can raise is the [TypeError] of reading a property
    of [undefined]. *)
Inductive completion : Type :=
| Return (v : jsstring)
| ThrowTypeError.

(** [parts.join('')] *)
Definition join (parts : list jsstring) : jsstring := List.concat parts.

Section Generator.

(** [String.prototype.toLowerCase] *)
Variable toLowerCase : jsstring -> jsstring.

(** The values of [maxLen] and [substrings] after the loop. *)
Definition scan_result (productName : jsstring) : Z * list run :=
  scan (toLowerCase productName) 0 0 [].

Definition generateProductCode (productName : jsstring) : completion :=
  let lower := toLowerCase productName in
  let (maxLen, substrings) := scan lower 0 0 [] in
  let concat := join (map str substrings) in
  match nth_error substrings 0 with
  | None => ThrowTypeError
  | Some s0 =>
      let first := start s0 in
      let last := first + maxLen - 1 in
      let hash := slice (sha1_hex productName) 0 8 in
      Return (hash ++ js "-" ++ number_to_string first ++ concat
                   ++ number_to_string last)
  end.

End Generator.

(** The lowercase mapping restricted to Basic Latin: [A]..[Z] go to
    [a]..[z] and every other code unit is kept.  The real mapping agrees
    with it on every string of code units below 128. *)
Definition lower_unit (c : code_unit) : code_unit :=
  if (65 <=? c) && (c <=? 90) then c + 32 else c.

Definition toLowerCase_latin (s : jsstring) : jsstring := map lower_unit s.

Definition basic_latin (s : jsstring) : Prop :=
  Forall (fun c => 0 <= c < 128) s.

(** What is assumed of [toLowerCase] where a claim is about a concrete
    Basic Latin input. *)
Definition lowercases_basic_latin (toLowerCase : jsstring -> jsstring) : Prop :=
  forall s, basic_latin s -> toLowerCase s = toLowerCase_latin s.

(** What is assumed of [toLowerCase] where a claim is about every
    non-empty input: no code unit has an empty lowercase mapping. *)
Definition preserves_nonempty (toLowerCase : jsstring -> jsstring) : Prop :=
  forall s, s <> [] -> toLowerCase s <> [].

Example code_abcdef :
  generateProductCode toLowerCase_latin (js "abcdef")
  = Return (js "1f8ac10f-0abcdef5").
Proof. vm_compute. reflexivity. Qed.

Example code_a :
  generateProductCode toLowerCase_latin (js "a") = Return (js "86f7e437-0a0").
Proof. vm_compute. reflexivity. Qed.

Example code_tie :
  generateProductCode toLowerCase_latin (js "abzcdz")
  = Return (slice (sha1_hex (js "abzcdz")) 0 8 ++ js "-0abzcdz2").
Proof. vm_compute. reflexivity. Qed.

(** ** The runs of a string, as the specification defines them *)

(** The indices [a], [a + 1], ..., [a + len - 1]. *)
Fixpoint zseq (a : Z) (len : nat) : list Z :=
  match len with
  | O => []
  | S len' => a :: zseq (a + 1) len'
  end.

Definition indices (s : jsstring) : list Z := zseq 0 (List.length s).

(** The unit at [k + 1] strictly exceeds the unit at [k]. *)
Definition exceeds_previous (s : jsstring) (k : Z) : bool :=
  js_lt (char_at s k) (char_at s (k + 1)).

(** The units at [i..j] form a contiguous substring in which each unit
    strictly exceeds the previous one. *)
Definition increasing (s : jsstring) (i j : Z) : bool :=
  (0 <=? i) && (i <=? j) && (j <? jslength s)
  && forallb (fun k => implb ((i <=? k) && (k <? j)) (exceeds_previous s k))
             (indices s).

(** The run [i..j] is maximal: it extends neither to the left nor to the
    right. *)
Definition maximal_run (s : jsstring) (r : Z * Z) : bool :=
  let (i, j) := r in
  increasing s i j
  && negb (increasing s (i - 1) j)
  && negb (increasing s i (j + 1)).

(** Every maximal run, in left-to-right order of occurrence. *)
Definition maximal_runs (s : jsstring) : list (Z * Z) :=
  filter (maximal_run s) (list_prod (indices s) (indices s)).

Definition run_length (r : Z * Z) : Z := snd r - fst r + 1.

(** The greatest length among some runs ([0] when there is none), and the
    runs that have it, in the order they are listed. *)
Definition greatest (runs : list (Z * Z)) : Z :=
  fold_right Z.max 0 (map run_length runs).

Definition tied (runs : list (Z * Z)) : list (Z * Z) :=
  filter (fun r => run_length r =? greatest runs) runs.

(** The greatest run length found in the string. *)
Definition greatest_length (s : jsstring) : Z := greatest (maximal_runs s).

(** The tied-maximum set, in left-to-right order. *)
Definition tied_runs (s : jsstring) : list (Z * Z) := tied (maximal_runs s).

Definition substring (s : jsstring) (r : Z * Z) : jsstring :=
  firstn (Z.to_nat (run_length r)) (skipn (Z.to_nat (fst r)) s).

Definition spec_concat (s : jsstring) : jsstring :=
  flat_map (substring s) (tied_runs s).

Example tied_abzcdz : tied_runs (js "abzcdz") = [(0, 2); (3, 5)].
Proof. vm_compute. reflexivity. Qed.

Example tied_iphone : tied_runs (js "iphone") = [(0, 1); (2, 3)].
Proof. vm_compute. reflexivity. Qed.

(** ** Index ranges *)

Lemma zseq_In a len x : In x (zseq a len) <-> a <= x < a + Z.of_nat len.
Proof.
  revert a. induction len as [|len IH]; intros a; simpl zseq.
  - simpl. lia.
  - simpl In. rewrite IH. lia.
Qed.

Lemma zseq_app a m k :
  zseq a (m + k) = zseq a m ++ zseq (a + Z.of_nat m) k.
Proof.
  revert a. induction m as [|m IH]; intros a.
  - simpl. f_equal. lia.
  - change (S m + k)%nat with (S (m + k)). simpl zseq. rewrite IH.
    simpl. do 3 f_equal. lia.
Qed.

Lemma zseq_split a len b :
  a <= b <= a + Z.of_nat len ->
  zseq a len = zseq a (Z.to_nat (b - a)) ++ zseq b (Z.to_nat (a + Z.of_nat len - b)).
Proof.
  intros H.
  replace len with (Z.to_nat (b - a) + Z.to_nat (a + Z.of_nat len - b))%nat
    at 1 by lia.
  rewrite zseq_app. do 2 f_equal. lia.
Qed.

Lemma filter_none {T} (p : T -> bool) (l : list T) :
  (forall x, In x l -> p x = false) -> filter p l = [].
Proof.
  induction l as [|y l IH]; intros H; [reflexivity|].
  simpl. rewrite (H y) by (left; reflexivity).
  apply IH. intros x Hx. apply H. right. assumption.
Qed.

Lemma zseq_filter_none (p : Z -> bool) a len :
  (forall x, a <= x < a + Z.of_nat len -> p x = false) ->
  filter p (zseq a len) = [].
Proof.
  intros H. apply filter_none. intros x Hx.
  apply zseq_In in Hx. apply H. assumption.
Qed.

Lemma zseq_filter_one (p : Z -> bool) a len j :
  a <= j < a + Z.of_nat len ->
  (forall x, a <= x < a + Z.of_nat len -> p x = true <-> x = j) ->
  filter p (zseq a len) = [j].
Proof.
  intros Hj Hp.
  rewrite (zseq_split a len j) by lia.
  replace (Z.to_nat (a + Z.of_nat len - j))
    with (S (Z.to_nat (a + Z.of_nat len - j - 1))) by lia.
  simpl zseq. rewrite filter_app. simpl filter.
  rewrite !zseq_filter_none.
  - destruct (p j) eqn:E; [reflexivity|].
    assert (p j = true) by (apply Hp; [lia | reflexivity]). congruence.
  - intros x Hx. destruct (p x) eqn:E; [|reflexivity].
    apply Hp in E; lia.
  - intros x Hx. destruct (p x) eqn:E; [|reflexivity].
    apply Hp in E; lia.
Qed.

(** ** The inner loop *)

Lemma ascends_exceeds s k :
  ascends s k = (k + 1 <? jslength s) && exceeds_previous s k.
Proof. reflexivity. Qed.

Lemma extend_run_step lower j :
  extend_run lower j =
  if ascends lower j then extend_run lower (j + 1) else j.
Proof.
  funelim (extend_run lower j).
  - rewrite e. reflexivity.
  - rewrite e. reflexivity.
Qed.

(** When the inner loop exits, every index from [i] up to [j] ascended and
    [j] does not. *)
Lemma extend_run_ascends lower i k :
  i <= k < extend_run lower i -> ascends lower k = true.
Proof.
  funelim (extend_run lower i); intros Hk.
  - destruct (Z.eq_dec k j) as [->|Hne]; [assumption|].
    apply H. lia.
  - lia.
Qed.

Lemma extend_run_stops lower i : ascends lower (extend_run lower i) = false.
Proof.
  funelim (extend_run lower i); assumption.
Qed.

Lemma extend_run_lt lower i :
  i < jslength lower -> extend_run lower i < jslength lower.
Proof.
  funelim (extend_run lower i); intros Hi.
  - apply H. pose proof e as Ha. unfold ascends in Ha.
    apply andb_prop in Ha. destruct Ha as [Ha _]. apply Z.ltb_lt in Ha. lia.
  - assumption.
Qed.

Lemma extend_run_unique lower i j :
  i <= j ->
  (forall k, i <= k < j -> ascends lower k = true) ->
  ascends lower j = false ->
  extend_run lower i = j.
Proof.
  intros Hij Hup Hstop.
  pose proof (extend_run_ge lower i) as Hge.
  pose proof (extend_run_stops lower i) as Hs.
  destruct (Z.lt_trichotomy (extend_run lower i) j) as [Hlt|[Heq|Hgt]].
  - rewrite Hup in Hs by lia. discriminate.
  - assumption.
  - rewrite (extend_run_ascends lower i j) in Hstop by lia. discriminate.
Qed.

(** ** Maximal runs and the inner loop *)

Lemma increasing_iff s i j :
  increasing s i j = true <->
  0 <= i <= j /\ j < jslength s /\
  forall k, i <= k < j -> exceeds_previous s k = true.
Proof.
  unfold increasing. rewrite !andb_true_iff, forallb_forall.
  rewrite Z.leb_le, Z.leb_le, Z.ltb_lt. split.
  - intros [[[H0 Hij] Hn] Hall]. repeat split; try assumption.
    intros k Hk. specialize (Hall k).
    replace ((i <=? k) && (k <? j)) with true in Hall
      by (symmetry; apply andb_true_iff; split;
          [apply Z.leb_le | apply Z.ltb_lt]; lia).
    apply Hall. apply zseq_In. unfold jslength in Hn. lia.
  - intros [[H0 Hij] [Hn Hall]]. repeat split; try assumption.
    intros k _. destruct ((i <=? k) && (k <? j)) eqn:E; [|reflexivity].
    apply andb_true_iff in E. destruct E as [E1 E2].
    apply Z.leb_le in E1. apply Z.ltb_lt in E2. simpl. apply Hall. lia.
Qed.

Lemma ascends_iff s k :
  ascends s k = true <-> k + 1 < jslength s /\ exceeds_previous s k = true.
Proof.
  rewrite ascends_exceeds, andb_true_iff, Z.ltb_lt. reflexivity.
Qed.

(** A position where a maximal run can start: the first index, or one whose
    unit does not exceed the unit before it. *)
Definition run_start (s : jsstring) (i : Z) : Prop :=
  i = 0 \/ exceeds_previous s (i - 1) = false.

(** The maximal runs are exactly the pairs the scan can record: a start
    position together with the index the inner loop reaches from it. *)
Lemma maximal_run_iff s i j :
  maximal_run s (i, j) = true <->
  0 <= i < jslength s /\ run_start s i /\ j = extend_run s i.
Proof.
  unfold maximal_run. rewrite !andb_true_iff, !negb_true_iff. split.
  - intros [[Hinc Hleft] Hright].
    apply increasing_iff in Hinc. destruct Hinc as [Hb [Hn Hall]].
    split; [lia|]. split.
    + destruct (Z.eq_dec i 0) as [->|Hi]; [left; reflexivity|]. right.
      destruct (exceeds_previous s (i - 1)) eqn:E; [|reflexivity].
      assert (increasing s (i - 1) j = true) as Hc; [|congruence].
      apply increasing_iff. repeat split; try lia.
      intros k Hk. destruct (Z.eq_dec k (i - 1)) as [->|Hne];
        [assumption | apply Hall; lia].
    + symmetry. apply extend_run_unique; [lia| |].
      * intros k Hk. apply ascends_iff. split; [lia | apply Hall; lia].
      * destruct (ascends s j) eqn:E; [|reflexivity].
        apply ascends_iff in E. destruct E as [E1 E2].
        assert (increasing s i (j + 1) = true) as Hc; [|congruence].
        apply increasing_iff. repeat split; try lia.
        intros k Hk. destruct (Z.eq_dec k j) as [->|Hne];
          [assumption | apply Hall; lia].
  - intros [Hi [Hstart ->]].
    pose proof (extend_run_ge s i) as Hge.
    pose proof (extend_run_lt s i ltac:(lia)) as Hlt.
    pose proof (extend_run_stops s i) as Hstop.
    pose proof (extend_run_ascends s i) as Hasc.
    repeat split.
    + apply increasing_iff. repeat split; try lia.
      intros k Hk. apply (Hasc k) in Hk. apply ascends_iff in Hk. tauto.
    + destruct (increasing s (i - 1) (extend_run s i)) eqn:E; [|reflexivity].
      apply increasing_iff in E. destruct E as [Hb [_ Hall]].
      destruct Hstart as [->|Hs]; [lia|].
      rewrite Hall in Hs by lia. discriminate.
    + destruct (increasing s i (extend_run s i + 1)) eqn:E; [|reflexivity].
      apply increasing_iff in E. destruct E as [Hb [Hn Hall]].
      assert (ascends s (extend_run s i) = true) as Hc; [|congruence].
      apply ascends_iff. split; [lia | apply Hall; lia].
Qed.

(** ** The outer loop visits the maximal runs *)

(** The maximal runs that start at index [a] or later. *)
Definition runs_from (s : jsstring) (a : Z) : list (Z * Z) :=
  filter (maximal_run s)
         (list_prod (zseq a (Z.to_nat (jslength s - a))) (indices s)).

Lemma runs_from_0 s : runs_from s 0 = maximal_runs s.
Proof.
  unfold runs_from, maximal_runs, indices, jslength.
  rewrite Z.sub_0_r, Nat2Z.id. reflexivity.
Qed.

Lemma list_prod_app_l {T U} (l1 l2 : list T) (l : list U) :
  list_prod (l1 ++ l2) l = list_prod l1 l ++ list_prod l2 l.
Proof.
  induction l1 as [|x l1 IH]; [reflexivity|].
  simpl. rewrite IH, app_assoc. reflexivity.
Qed.

Lemma filter_map_pair {T U} (p : T * U -> bool) (x : T) (l : list U) :
  filter p (map (pair x) l) = map (pair x) (filter (fun y => p (x, y)) l).
Proof.
  induction l as [|y l IH]; [reflexivity|].
  simpl. destruct (p (x, y)); simpl; rewrite IH; reflexivity.
Qed.

(** The row of a start position holds one maximal run. *)
Lemma runs_row_start s a :
  0 <= a < jslength s -> run_start s a ->
  filter (maximal_run s) (list_prod [a] (indices s)) = [(a, extend_run s a)].
Proof.
  intros Ha Hstart. simpl list_prod. rewrite app_nil_r, filter_map_pair.
  unfold indices.
  rewrite (zseq_filter_one _ 0 (List.length s) (extend_run s a)).
  - reflexivity.
  - pose proof (extend_run_ge s a). pose proof (extend_run_lt s a).
    unfold jslength in *. lia.
  - intros x _. rewrite maximal_run_iff. split.
    + intros [_ [_ ->]]. reflexivity.
    + intros ->. tauto.
Qed.

(** The rows of the indices inside a run hold none. *)
Lemma runs_rows_inside s a m :
  0 <= a ->
  (forall x, a < x < a + 1 + Z.of_nat m -> exceeds_previous s (x - 1) = true) ->
  filter (maximal_run s) (list_prod (zseq (a + 1) m) (indices s)) = [].
Proof.
  intros Ha Hin. apply filter_none. intros [x y] Hxy.
  apply in_prod_iff in Hxy. destruct Hxy as [Hx _]. apply zseq_In in Hx.
  destruct (maximal_run s (x, y)) eqn:E; [|reflexivity].
  apply maximal_run_iff in E. destruct E as [_ [[E|E] _]]; [lia|].
  rewrite Hin in E by lia. discriminate.
Qed.

Lemma runs_from_step s a :
  0 <= a < jslength s -> run_start s a ->
  runs_from s a = (a, extend_run s a) :: runs_from s (extend_run s a + 1).
Proof.
  intros Ha Hstart. unfold runs_from.
  pose proof (extend_run_ge s a) as Hge.
  pose proof (extend_run_lt s a ltac:(lia)) as Hlt.
  set (j := extend_run s a) in *.
  rewrite (zseq_split a _ (a + 1)) by lia.
  rewrite (zseq_split (a + 1) _ (j + 1)) by lia.
  replace (Z.to_nat (a + 1 - a)) with 1%nat by lia.
  change (zseq a 1) with [a].
  rewrite !list_prod_app_l, !filter_app.
  rewrite runs_row_start by assumption. fold j.
  rewrite runs_rows_inside.
  - simpl. do 3 f_equal. f_equal. lia.
  - lia.
  - intros x Hx.
    assert (ascends s (x - 1) = true) as Hasc
      by (apply (extend_run_ascends s a); fold j; lia).
    apply ascends_iff in Hasc. tauto.
Qed.

Lemma runs_from_end s a : jslength s <= a -> runs_from s a = [].
Proof.
  intros Ha. unfold runs_from.
  replace (Z.to_nat (jslength s - a)) with 0%nat by lia. reflexivity.
Qed.

(** One iteration of the outer loop, seen as an update of
    [(maxLen, substrings)] by the run it found. *)
Definition to_run (s : jsstring) (r : Z * Z) : run :=
  mk_run (slice s (fst r) (snd r + 1)) (fst r).

Definition record (s : jsstring) (st : Z * list run) (r : Z * Z)
  : Z * list run :=
  record_run (run_length r) (to_run s r) (fst st) (snd st).

Lemma scan_step lower i maxLen substrings :
  scan lower i maxLen substrings =
  if i <? jslength lower then
    let j := extend_run lower i in
    let st := record_run (j - i + 1) (mk_run (slice lower i (j + 1)) i)
                maxLen substrings in
    scan lower (j + 1) (fst st) (snd st)
  else (maxLen, substrings).
Proof.
  funelim (scan lower i maxLen substrings).
  - rewrite e. reflexivity.
  - rewrite e. reflexivity.
Qed.

(** The loop, started at a run start, folds [record] over the maximal runs
    that remain. *)
Lemma scan_fold lower (m : nat) : forall i maxLen substrings,
  0 <= i -> (jslength lower - i <= Z.of_nat m) ->
  (i < jslength lower -> run_start lower i) ->
  scan lower i maxLen substrings =
  fold_left (record lower) (runs_from lower i) (maxLen, substrings).
Proof.
  induction m as [|m IH]; intros i maxLen substrings Hi Hm Hstart.
  - rewrite scan_step, runs_from_end by lia.
    replace (i <? jslength lower) with false
      by (symmetry; apply Z.ltb_ge; lia).
    reflexivity.
  - rewrite scan_step. destruct (i <? jslength lower) eqn:E.
    + apply Z.ltb_lt in E.
      pose proof (extend_run_ge lower i) as Hge.
      pose proof (extend_run_stops lower i) as Hstop.
      rewrite (runs_from_step lower i) by (try apply Hstart; lia).
      simpl fold_left. cbv zeta.
      rewrite IH; [rewrite <- surjective_pairing; reflexivity|lia|lia|].
      intros Hlt. right.
      replace (extend_run lower i + 1 - 1) with (extend_run lower i) by lia.
      rewrite ascends_exceeds in Hstop.
      apply andb_false_iff in Hstop. destruct Hstop as [Hs|Hs]; [|assumption].
      apply Z.ltb_ge in Hs. lia.
    + apply Z.ltb_ge in E. rewrite runs_from_end by lia. reflexivity.
Qed.

Lemma scan_maximal_runs lower :
  scan lower 0 0 [] = fold_left (record lower) (maximal_runs lower) (0, []).
Proof.
  rewrite <- runs_from_0.
  apply (scan_fold lower (List.length lower)).
  - lia.
  - unfold jslength. lia.
  - intros _. left. reflexivity.
Qed.

(** ** The accumulator holds the tied-maximum set *)

Lemma greatest_nonneg runs : 0 <= greatest runs.
Proof.
  unfold greatest. induction runs as [|r runs IH]; simpl; lia.
Qed.

Lemma greatest_app l1 l2 :
  greatest (l1 ++ l2) = Z.max (greatest l1) (greatest l2).
Proof.
  pose proof (greatest_nonneg l2) as H2. unfold greatest in *.
  induction l1 as [|r l1 IH]; simpl; [lia|].
  rewrite IH. lia.
Qed.

Lemma greatest_ge runs r : In r runs -> run_length r <= greatest runs.
Proof.
  unfold greatest. induction runs as [|x runs IH]; simpl; [tauto|].
  intros [->|Hin]; [lia|]. specialize (IH Hin). lia.
Qed.

Lemma greatest_attained runs :
  runs <> [] -> (forall r, In r runs -> 0 <= run_length r) ->
  exists r, In r runs /\ run_length r = greatest runs.
Proof.
  induction runs as [|x runs IH]; intros Hne Hpos; [congruence|].
  destruct runs as [|y runs].
  - exists x. split; [left; reflexivity|].
    unfold greatest. simpl. specialize (Hpos x (or_introl eq_refl)). lia.
  - destruct IH as [r [Hin Hr]]; [discriminate| |].
    + intros r Hr. apply Hpos. right. assumption.
    + change (greatest (x :: y :: runs))
        with (Z.max (run_length x) (greatest (y :: runs))).
      destruct (Z.le_gt_cases (run_length x) (greatest (y :: runs))).
      * exists r. split; [right; assumption | lia].
      * exists x. split; [left; reflexivity | lia].
Qed.

Lemma tied_nonempty runs :
  runs <> [] -> (forall r, In r runs -> 0 <= run_length r) -> tied runs <> [].
Proof.
  intros Hne Hpos. destruct (greatest_attained runs Hne Hpos) as [r [Hin Hr]].
  assert (In r (tied runs)) as Ht
    by (apply filter_In; split; [assumption | apply Z.eqb_eq; assumption]).
  intros E. rewrite E in Ht. exact Ht.
Qed.

Lemma record_snoc s prev r :
  record s (greatest prev, map (to_run s) (tied prev)) r =
  (greatest (prev ++ [r]), map (to_run s) (tied (prev ++ [r]))).
Proof.
  pose proof (greatest_nonneg prev) as Hnn.
  assert (greatest (prev ++ [r]) = Z.max (greatest prev) (run_length r)) as HG.
  { rewrite greatest_app. unfold greatest at 2. simpl. lia. }
  assert (tied (prev ++ [r]) =
          filter (fun x => run_length x =? greatest (prev ++ [r])) prev
          ++ (if run_length r =? greatest (prev ++ [r]) then [r] else []))
    as HT by (unfold tied; rewrite filter_app; reflexivity).
  rewrite HT, HG. unfold record, record_run. cbn [fst snd].
  destruct (Z.gtb_spec (run_length r) (greatest prev)) as [Hgt|Hle].
  - replace (Z.max (greatest prev) (run_length r)) with (run_length r) by lia.
    rewrite Z.eqb_refl, filter_none; [reflexivity|].
    intros x Hx. apply greatest_ge in Hx. apply Z.eqb_neq. lia.
  - destruct (Z.eqb_spec (run_length r) (greatest prev)) as [Heq|Hne].
    + rewrite Heq, Z.max_id, Z.eqb_refl, map_app. reflexivity.
    + replace (Z.max (greatest prev) (run_length r)) with (greatest prev)
        by lia.
      replace (run_length r =? greatest prev) with false
        by (symmetry; apply Z.eqb_neq; assumption).
      rewrite app_nil_r. reflexivity.
Qed.

Lemma record_fold s runs : forall prev,
  fold_left (record s) runs (greatest prev, map (to_run s) (tied prev)) =
  (greatest (prev ++ runs), map (to_run s) (tied (prev ++ runs))).
Proof.
  induction runs as [|r runs IH]; intros prev.
  - rewrite app_nil_r. reflexivity.
  - simpl fold_left. rewrite record_snoc, IH, <- app_assoc. reflexivity.
Qed.

(** The scan ends with [maxLen] the greatest run length and [substrings]
    the tied-maximum set, in left-to-right order. *)
Lemma scan_spec lower :
  scan lower 0 0 [] =
  (greatest_length lower, map (to_run lower) (tied_runs lower)).
Proof.
  rewrite scan_maximal_runs. apply (record_fold lower (maximal_runs lower) []).
Qed.

(** ** Bounds on the runs *)

Lemma maximal_runs_bounds s i j :
  In (i, j) (maximal_runs s) -> 0 <= i <= j /\ j < jslength s.
Proof.
  intros Hin. apply filter_In in Hin. destruct Hin as [_ Hm].
  apply maximal_run_iff in Hm. destruct Hm as [Hi [_ ->]].
  pose proof (extend_run_ge s i). pose proof (extend_run_lt s i). lia.
Qed.

Lemma maximal_runs_nonempty s : s <> [] -> maximal_runs s <> [].
Proof.
  intros Hne. rewrite <- runs_from_0, runs_from_step.
  - discriminate.
  - destruct s; [congruence|]. unfold jslength. simpl List.length. lia.
  - left. reflexivity.
Qed.

Lemma tied_runs_nonempty s : s <> [] -> tied_runs s <> [].
Proof.
  intros Hne. apply tied_nonempty.
  - apply maximal_runs_nonempty. assumption.
  - intros [i j] Hin. apply maximal_runs_bounds in Hin.
    unfold run_length. simpl. lia.
Qed.

Lemma tied_runs_In s i j :
  In (i, j) (tied_runs s) ->
  0 <= i <= j /\ j < jslength s /\ j = i + greatest_length s - 1.
Proof.
  intros Hin. apply filter_In in Hin. destruct Hin as [Hin Hlen].
  apply maximal_runs_bounds in Hin. apply Z.eqb_eq in Hlen.
  unfold run_length in Hlen. simpl in Hlen. fold (greatest_length s) in Hlen.
  lia.
Qed.

(** [slice] on a run is the substring the specification speaks of. *)
Lemma slice_substring s i j :
  0 <= i <= j -> j < jslength s -> slice s i (j + 1) = substring s (i, j).
Proof.
  intros Hij Hj. unfold slice, substring, clamp_index, run_length.
  cbn [fst snd].
  replace (i <? 0) with false by (symmetry; apply Z.ltb_ge; lia).
  replace (j + 1 <? 0) with false by (symmetry; apply Z.ltb_ge; lia).
  f_equal; [|f_equal]; lia.
Qed.

(** ** The pieces of the returned string *)

Definition is_digit (c : code_unit) : Prop := 48 <= c <= 57.

Definition is_hex_lower (c : code_unit) : Prop :=
  48 <= c <= 57 \/ 97 <= c <= 102.

Lemma uint_units_digits u : Forall is_digit (uint_units u).
Proof.
  induction u; simpl; constructor; try assumption; unfold is_digit; lia.
Qed.

Lemma uint_units_nonempty u : u <> Decimal.Nil -> uint_units u <> [].
Proof.
  destruct u; simpl; intros H; try discriminate. congruence.
Qed.

Lemma number_to_string_digits n :
  0 <= n -> Forall is_digit (number_to_string n) /\ number_to_string n <> [].
Proof.
  intros Hn. unfold number_to_string. destruct n as [|p|p]; simpl.
  - split; [repeat constructor; unfold is_digit; lia | discriminate].
  - split; [apply uint_units_digits|].
    apply uint_units_nonempty, Unsigned.to_uint_nonnil.
  - lia.
Qed.

Lemma nibble_bound x : 0 <= Z.land x 0xF < 16.
Proof.
  change 0xF with (Z.ones 4). rewrite Z.land_ones by lia.
  apply Z.mod_pos_bound. lia.
Qed.

Lemma hex_digit_lower n : 0 <= n < 16 -> is_hex_lower (SHA1.hex_digit n).
Proof.
  intros Hn. unfold SHA1.hex_digit, is_hex_lower.
  destruct (Z.ltb_spec n 10); lia.
Qed.

Lemma hex_word_lower w : Forall is_hex_lower (SHA1.hex_word w).
Proof.
  unfold SHA1.hex_word. apply Forall_map, Forall_forall. intros k _.
  apply hex_digit_lower, nibble_bound.
Qed.

Lemma hex_word_length w : List.length (SHA1.hex_word w) = 8%nat.
Proof. reflexivity. Qed.

(** [digest('hex').slice(0, 8)] is the first word of the digest in
    hexadecimal. *)
Lemma hash8_first_word s :
  slice (sha1_hex s) 0 8 = SHA1.hex_word (SHA1.A (SHA1.digest (utf8_encode s))).
Proof.
  unfold sha1_hex, SHA1.hex, slice, jslength.
  rewrite !length_app, !hex_word_length.
  change (firstn 8 (SHA1.hex_word (SHA1.A (SHA1.digest (utf8_encode s)))
                    ++ SHA1.hex_word (SHA1.B (SHA1.digest (utf8_encode s)))
                    ++ SHA1.hex_word (SHA1.C (SHA1.digest (utf8_encode s)))
                    ++ SHA1.hex_word (SHA1.D (SHA1.digest (utf8_encode s)))
                    ++ SHA1.hex_word (SHA1.E (SHA1.digest (utf8_encode s))))
          = SHA1.hex_word (SHA1.A (SHA1.digest (utf8_encode s)))).
  reflexivity.
Qed.

Lemma hash8_take s : slice (sha1_hex s) 0 8 = firstn 8 (sha1_hex s).
Proof.
  rewrite hash8_first_word. reflexivity.
Qed.

Lemma hash8_length s : List.length (slice (sha1_hex s) 0 8) = 8%nat.
Proof. rewrite hash8_first_word. apply hex_word_length. Qed.

Lemma hash8_lower s : Forall is_hex_lower (slice (sha1_hex s) 0 8).
Proof. rewrite hash8_first_word. apply hex_word_lower. Qed.

(** [concat] is the concatenation of the tied runs' substrings. *)
Lemma join_tied_runs s :
  join (map str (map (to_run s) (tied_runs s))) = spec_concat s.
Proof.
  unfold join, spec_concat. rewrite flat_map_concat_map, map_map. f_equal.
  apply map_ext_in. intros [i j] Hin. apply tied_runs_In in Hin.
  simpl. apply slice_substring; lia.
Qed.

Lemma toLowerCase_latin_nonempty : preserves_nonempty toLowerCase_latin.
Proof.
  intros s Hs. destruct s; [congruence | discriminate].
Qed.

Lemma toLowerCase_latin_basic : lowercases_basic_latin toLowerCase_latin.
Proof. intros s _. reflexivity. Qed.

(** ** The returned string *)

Section Properties.

Variable toLowerCase : jsstring -> jsstring.

(** What the generator returns when the lowercased name is not empty:
    the scan has recorded the tied-maximum set [(i, j) :: rest], and the
    string is built from the hash, [i], the tied substrings and [j]. *)
Lemma generate_shape (s : jsstring) :
  toLowerCase s <> [] ->
  exists i j rest,
    tied_runs (toLowerCase s) = (i, j) :: rest /\
    scan_result toLowerCase s =
      (greatest_length (toLowerCase s),
       map (to_run (toLowerCase s)) ((i, j) :: rest)) /\
    0 <= i <= j /\ j < jslength (toLowerCase s) /\
    j = i + greatest_length (toLowerCase s) - 1 /\
    generateProductCode toLowerCase s =
      Return (slice (sha1_hex s) 0 8 ++ js "-" ++ number_to_string i
              ++ spec_concat (toLowerCase s)
              ++ number_to_string (i + greatest_length (toLowerCase s) - 1)).
Proof.
  intros Hne. pose proof (tied_runs_nonempty _ Hne) as Ht.
  pose proof (join_tied_runs (toLowerCase s)) as Hjoin.
  pose proof (tied_runs_In (toLowerCase s)) as Hin.
  unfold generateProductCode, scan_result. rewrite scan_spec.
  destruct (tied_runs (toLowerCase s)) as [|[i j] rest]; [congruence|].
  specialize (Hin i j (or_introl eq_refl)).
  exists i, j, rest. repeat split; try lia.
  rewrite Hjoin. reflexivity.
Qed.

(** C1.  For every non-empty input the generator returns
    [hash8 ++ "-" ++ first ++ concat ++ last] with nothing between
    [first], [concat] and [last]; [concat] is the concatenation of the
    substrings of ALL the runs tied for the greatest length, [first] is
    the start index of the FIRST tied run only, and
    [last = first + maxLen - 1]. *)
Theorem code_layout (s : jsstring) :
  preserves_nonempty toLowerCase -> s <> [] ->
  exists first_run rest,
    tied_runs (toLowerCase s) = first_run :: rest /\
    let first := fst first_run in
    let maxLen := greatest_length (toLowerCase s) in
    let concat := flat_map (substring (toLowerCase s)) (first_run :: rest) in
    let last := first + maxLen - 1 in
    generateProductCode toLowerCase s =
      Return (slice (sha1_hex s) 0 8 ++ js "-" ++ number_to_string first
              ++ concat ++ number_to_string last).
Proof.
  intros Hlow Hs.
  destruct (generate_shape s (Hlow s Hs)) as (i & j & rest & Ht & _ & _ & _ & _ & Hg).
  exists (i, j), rest. split; [assumption|]. cbv zeta. cbn [fst].
  rewrite Hg. unfold spec_concat. rewrite Ht. reflexivity.
Qed.

(** C2.  For every non-empty input the returned string starts with eight
    lowercase hexadecimal characters followed by the dash, and these are
    the first eight characters of the SHA-1 hex digest of the input as
    given, not of its lowercased form. *)
Theorem hash_prefix (s : jsstring) :
  preserves_nonempty toLowerCase -> s <> [] ->
  exists suffix,
    generateProductCode toLowerCase s = Return (firstn 8 (sha1_hex s) ++ js "-" ++ suffix) /\
    List.length (firstn 8 (sha1_hex s)) = 8%nat /\
    Forall is_hex_lower (firstn 8 (sha1_hex s)).
Proof.
  intros Hlow Hs.
  destruct (generate_shape s (Hlow s Hs)) as (i & j & rest & _ & _ & _ & _ & _ & Hg).
  rewrite <- hash8_take. eexists. split; [exact Hg|].
  split; [apply hash8_length | apply hash8_lower].
Qed.

(** C3.  The runs the scan has collected are the tied-maximum set of the
    lowercased input as the specification defines it (every maximal
    strictly increasing run whose length is the greatest one, from left
    to right), and [concat] is the concatenation of their substrings. *)
Theorem concat_tied_runs (s : jsstring) :
  let lower := toLowerCase s in
  let substrings := snd (scan_result toLowerCase s) in
  fst (scan_result toLowerCase s) = greatest_length lower /\
  map (fun r => (start r, str r)) substrings
    = map (fun r => (fst r, substring lower r)) (tied_runs lower) /\
  join (map str substrings) = spec_concat lower.
Proof.
  cbv zeta. unfold scan_result. rewrite scan_spec. cbn [fst snd].
  split; [reflexivity|]. split; [|apply join_tied_runs].
  rewrite map_map. apply map_ext_in. intros [i j] Hin.
  apply tied_runs_In in Hin. simpl. f_equal. apply slice_substring; lia.
Qed.

(** C4.  The generator is total on non-empty inputs: the scan of a
    non-empty string records at least one run, so [substrings[0].start]
    is defined and the call returns a string. *)
Theorem total_on_nonempty (s : jsstring) :
  preserves_nonempty toLowerCase -> s <> [] ->
  snd (scan_result toLowerCase s) <> [] /\
  exists code, generateProductCode toLowerCase s = Return code.
Proof.
  intros Hlow Hs.
  destruct (generate_shape s (Hlow s Hs)) as (i & j & rest & _ & Hscan & _ & _ & _ & Hg).
  split.
  - rewrite Hscan. discriminate.
  - eexists. exact Hg.
Qed.

(** C5.  On the empty string the scan records no run, [substrings] is
    empty, and reading [substrings[0].start] throws: the call does not
    return. *)
Theorem empty_input_throws :
  toLowerCase [] = [] ->
  scan_result toLowerCase [] = (0, []) /\
  generateProductCode toLowerCase [] = ThrowTypeError.
Proof.
  intros Hlow. unfold generateProductCode, scan_result. rewrite Hlow.
  split; reflexivity.
Qed.

End Properties.

Lemma code_layout_witness :
  exists first_run rest,
    tied_runs (toLowerCase_latin (js "abzcdz")) = first_run :: rest /\
    generateProductCode toLowerCase_latin (js "abzcdz") =
      Return (slice (sha1_hex (js "abzcdz")) 0 8 ++ js "-"
              ++ number_to_string (fst first_run)
              ++ flat_map (substring (toLowerCase_latin (js "abzcdz")))
                          (first_run :: rest)
              ++ number_to_string
                   (fst first_run
                    + greatest_length (toLowerCase_latin (js "abzcdz")) - 1)).
Proof.
  apply (code_layout toLowerCase_latin (js "abzcdz")
           toLowerCase_latin_nonempty).
  discriminate.
Defined.

Lemma hash_prefix_witness :
  exists suffix,
    generateProductCode toLowerCase_latin (js "IPhone")
      = Return (firstn 8 (sha1_hex (js "IPhone")) ++ js "-" ++ suffix) /\
    List.length (firstn 8 (sha1_hex (js "IPhone"))) = 8%nat /\
    Forall is_hex_lower (firstn 8 (sha1_hex (js "IPhone"))).
Proof.
  apply (hash_prefix toLowerCase_latin (js "IPhone")
           toLowerCase_latin_nonempty).
  discriminate.
Defined.

Lemma total_on_nonempty_witness :
  snd (scan_result toLowerCase_latin (js "a")) <> [] /\
  exists code, generateProductCode toLowerCase_latin (js "a") = Return code.
Proof.
  apply (total_on_nonempty toLowerCase_latin (js "a")
           toLowerCase_latin_nonempty).
  discriminate.
Defined.

Lemma empty_input_throws_witness :
  scan_result toLowerCase_latin [] = (0, []) /\
  generateProductCode toLowerCase_latin [] = ThrowTypeError.
Proof.
  apply (empty_input_throws toLowerCase_latin). reflexivity.
Defined.

(** ** Prefix and suffix of a code *)

(** The dash is at index 8: the part before it and the part after it. *)
Definition before_dash (c : completion) : option jsstring :=
  match c with
  | Return code => Some (firstn 8 code)
  | ThrowTypeError => None
  end.

Definition after_dash (c : completion) : option jsstring :=
  match c with
  | Return code => Some (skipn 9 code)
  | ThrowTypeError => None
  end.

Lemma firstn_hash8 s rest :
  firstn 8 (slice (sha1_hex s) 0 8 ++ rest) = slice (sha1_hex s) 0 8.
Proof.
  rewrite firstn_app, hash8_length, Nat.sub_diag, firstn_O, app_nil_r.
  apply firstn_all2. rewrite hash8_length. lia.
Qed.

Lemma skipn_hash8 s rest :
  skipn 9 (slice (sha1_hex s) 0 8 ++ js "-" ++ rest) = rest.
Proof.
  rewrite skipn_app, hash8_length, skipn_all2 by (rewrite hash8_length; lia).
  reflexivity.
Qed.

Lemma basic_latin_forallb s :
  forallb (fun c => (0 <=? c) && (c <? 128)) s = true -> basic_latin s.
Proof.
  intros H. apply Forall_forall. intros c Hc.
  rewrite forallb_forall in H. specialize (H c Hc).
  apply andb_true_iff in H. destruct H as [H1 H2].
  apply Z.leb_le in H1. apply Z.ltb_lt in H2. lia.
Qed.

Ltac lowercase_literal H :=
  rewrite H by (apply basic_latin_forallb; reflexivity).

Section CaseFolding.

Variable toLowerCase : jsstring -> jsstring.

Lemma after_dash_lower (s : jsstring) :
  after_dash (generateProductCode toLowerCase s) =
  let (maxLen, substrings) := scan (toLowerCase s) 0 0 [] in
  match nth_error substrings 0 with
  | None => None
  | Some s0 =>
      Some (number_to_string (start s0) ++ join (map str substrings)
            ++ number_to_string (start s0 + maxLen - 1))
  end.
Proof.
  unfold generateProductCode.
  destruct (scan (toLowerCase s) 0 0 []) as [maxLen substrings].
  destruct (nth_error substrings 0); [|reflexivity].
  unfold after_dash. rewrite skipn_hash8. reflexivity.
Qed.

Lemma before_dash_hash (s : jsstring) (code : jsstring) :
  generateProductCode toLowerCase s = Return code ->
  firstn 8 code = slice (sha1_hex s) 0 8.
Proof.
  unfold generateProductCode.
  destruct (scan (toLowerCase s) 0 0 []) as [maxLen substrings].
  destruct (nth_error substrings 0); [|discriminate].
  intros H. apply (f_equal before_dash) in H. cbn [before_dash] in H.
  rewrite firstn_hash8 in H. congruence.
Qed.

(** C6.  "IPhone" and "iphone" get the same part after the dash and
    different hash prefixes.  In general the part after the dash depends
    only on the lowercased input, and the prefix is computed from the
    input as given. *)
Theorem case_folding :
  lowercases_basic_latin toLowerCase ->
  (generateProductCode toLowerCase (js "IPhone")
     = Return (js "7db055ff" ++ js "-" ++ js "0ipho1") /\
   generateProductCode toLowerCase (js "iphone")
     = Return (js "851aad63" ++ js "-" ++ js "0ipho1") /\
   after_dash (generateProductCode toLowerCase (js "IPhone"))
     = after_dash (generateProductCode toLowerCase (js "iphone")) /\
   before_dash (generateProductCode toLowerCase (js "IPhone"))
     <> before_dash (generateProductCode toLowerCase (js "iphone"))) /\
  (forall s1 s2,
     toLowerCase s1 = toLowerCase s2 ->
     after_dash (generateProductCode toLowerCase s1)
     = after_dash (generateProductCode toLowerCase s2)) /\
  (forall s code,
     generateProductCode toLowerCase s = Return code ->
     firstn 8 code = firstn 8 (sha1_hex s)).
Proof.
  intros Hlow.
  assert (generateProductCode toLowerCase (js "IPhone")
          = Return (js "7db055ff" ++ js "-" ++ js "0ipho1")) as H1.
  { unfold generateProductCode. lowercase_literal Hlow.
    vm_compute. reflexivity. }
  assert (generateProductCode toLowerCase (js "iphone")
          = Return (js "851aad63" ++ js "-" ++ js "0ipho1")) as H2.
  { unfold generateProductCode. lowercase_literal Hlow.
    vm_compute. reflexivity. }
  split; [|split].
  - rewrite H1, H2. repeat split. discriminate.
  - intros s1 s2 Heq. rewrite !after_dash_lower, Heq. reflexivity.
  - intros s code Hc. rewrite <- hash8_take.
    apply before_dash_hash. assumption.
Qed.

(** C8.  On "cba" every run has length 1, the three one-character runs
    tie for [maxLen = 1], [concat] is "cba", [first] and [last] are 0,
    and the code is the SHA-1 prefix of "cba" followed by "-0cba0". *)
Theorem descending_cba :
  lowercases_basic_latin toLowerCase ->
  maximal_runs (toLowerCase (js "cba")) = [(0, 0); (1, 1); (2, 2)] /\
  scan_result toLowerCase (js "cba")
    = (1, [mk_run (js "c") 0; mk_run (js "b") 1; mk_run (js "a") 2]) /\
  join (map str (snd (scan_result toLowerCase (js "cba")))) = js "cba" /\
  generateProductCode toLowerCase (js "cba")
    = Return (firstn 8 (sha1_hex (js "cba")) ++ js "-"
              ++ number_to_string 0 ++ js "cba"
              ++ number_to_string (0 + 1 - 1)) /\
  generateProductCode toLowerCase (js "cba")
    = Return (js "d9f0509f-0cba0").
Proof.
  intros Hlow. unfold generateProductCode, scan_result.
  lowercase_literal Hlow. repeat split; vm_compute; reflexivity.
Qed.

(** C10.  For every non-empty input, with [n] the length of the
    lowercased input, the two indices written into the code satisfy
    [0 <= first <= last <= n - 1], and the lowercased input from [first]
    to [last] is the substring of the first run recorded in
    [substrings]. *)
Theorem index_bounds (s : jsstring) :
  preserves_nonempty toLowerCase -> s <> [] ->
  exists r rest,
    snd (scan_result toLowerCase s) = r :: rest /\
    let lower := toLowerCase s in
    let first := start r in
    let last := first + fst (scan_result toLowerCase s) - 1 in
    generateProductCode toLowerCase s =
      Return (slice (sha1_hex s) 0 8 ++ js "-" ++ number_to_string first
              ++ join (map str (r :: rest)) ++ number_to_string last) /\
    0 <= first /\ first <= last /\ last <= jslength lower - 1 /\
    slice lower first (last + 1) = str r.
Proof.
  intros Hlow Hs.
  destruct (generate_shape toLowerCase s (Hlow s Hs))
    as (i & j & rest & Ht & Hscan & Hij & Hj & Hlast & Hg).
  exists (to_run (toLowerCase s) (i, j)), (map (to_run (toLowerCase s)) rest).
  rewrite Hscan. cbn [fst snd map start str to_run]. cbv zeta.
  split; [reflexivity|]. rewrite <- Hlast.
  repeat split; try lia.
  rewrite Hg, <- Hlast. do 4 f_equal.
  rewrite <- join_tied_runs, Ht. reflexivity.
Qed.

End CaseFolding.

Lemma case_folding_witness :
  (generateProductCode toLowerCase_latin (js "IPhone")
     = Return (js "7db055ff" ++ js "-" ++ js "0ipho1") /\
   generateProductCode toLowerCase_latin (js "iphone")
     = Return (js "851aad63" ++ js "-" ++ js "0ipho1") /\
   after_dash (generateProductCode toLowerCase_latin (js "IPhone"))
     = after_dash (generateProductCode toLowerCase_latin (js "iphone")) /\
   before_dash (generateProductCode toLowerCase_latin (js "IPhone"))
     <> before_dash (generateProductCode toLowerCase_latin (js "iphone"))) /\
  (forall s1 s2,
     toLowerCase_latin s1 = toLowerCase_latin s2 ->
     after_dash (generateProductCode toLowerCase_latin s1)
     = after_dash (generateProductCode toLowerCase_latin s2)) /\
  (forall s code,
     generateProductCode toLowerCase_latin s = Return code ->
     firstn 8 code = firstn 8 (sha1_hex s)).
Proof.
  apply (case_folding toLowerCase_latin toLowerCase_latin_basic).
Defined.

Lemma descending_cba_witness :
  generateProductCode toLowerCase_latin (js "cba")
  = Return (js "d9f0509f-0cba0").
Proof.
  apply (descending_cba toLowerCase_latin toLowerCase_latin_basic).
Defined.

Lemma index_bounds_witness :
  exists r rest,
    snd (scan_result toLowerCase_latin (js "abzcdz")) = r :: rest /\
    generateProductCode toLowerCase_latin (js "abzcdz") =
      Return (slice (sha1_hex (js "abzcdz")) 0 8 ++ js "-"
              ++ number_to_string (start r)
              ++ join (map str (r :: rest))
              ++ number_to_string
                   (start r
                    + fst (scan_result toLowerCase_latin (js "abzcdz")) - 1)) /\
    0 <= start r /\
    start r
      <= start r + fst (scan_result toLowerCase_latin (js "abzcdz")) - 1 /\
    start r + fst (scan_result toLowerCase_latin (js "abzcdz")) - 1
      <= jslength (toLowerCase_latin (js "abzcdz")) - 1 /\
    slice (toLowerCase_latin (js "abzcdz")) (start r)
          (start r + fst (scan_result toLowerCase_latin (js "abzcdz")) - 1 + 1)
      = str r.
Proof.
  apply (index_bounds toLowerCase_latin (js "abzcdz")
           toLowerCase_latin_nonempty).
  discriminate.
Defined.

(** ** The format of a code *)

(** The characters that [.] does not match in a regular expression. *)
Definition line_terminator (c : code_unit) : Prop :=
  c = 10 \/ c = 13 \/ c = 0x2028 \/ c = 0x2029.

(** A string matches [^[0-9a-f]{8}-\d+.*\d+$]: eight lowercase hexadecimal
    characters, a dash, one or more digits, any characters [.] matches, and
    one or more digits at the end. *)
Definition matches_format (code : jsstring) : Prop :=
  exists hash digits1 content digits2,
    code = hash ++ js "-" ++ digits1 ++ content ++ digits2 /\
    List.length hash = 8%nat /\ Forall is_hex_lower hash /\
    digits1 <> [] /\ Forall is_digit digits1 /\
    Forall (fun c => ~ line_terminator c) content /\
    digits2 <> [] /\ Forall is_digit digits2.

(** An input made of the letters [A]..[Z] and [a]..[z]. *)
Definition alphabetic (s : jsstring) : Prop :=
  Forall (fun c => 65 <= c <= 90 \/ 97 <= c <= 122) s.

(** Two adjacent characters of which the second exceeds the first. *)
Definition ascending_pair (s : jsstring) : Prop :=
  exists k, 0 <= k /\ k + 1 < jslength s /\ exceeds_previous s k = true.

Lemma firstn_incl {T} (n : nat) (l : list T) x : In x (firstn n l) -> In x l.
Proof.
  intros H. rewrite <- (firstn_skipn n l). apply in_or_app. left. assumption.
Qed.

Lemma skipn_incl {T} (n : nat) (l : list T) x : In x (skipn n l) -> In x l.
Proof.
  intros H. rewrite <- (firstn_skipn n l). apply in_or_app. right. assumption.
Qed.

Lemma spec_concat_In s x : In x (spec_concat s) -> In x s.
Proof.
  unfold spec_concat. rewrite in_flat_map. intros [r [_ Hx]].
  unfold substring in Hx. apply firstn_incl, skipn_incl in Hx. assumption.
Qed.

Lemma alphabetic_lower s :
  alphabetic s ->
  basic_latin s /\
  Forall (fun c => ~ line_terminator c) (toLowerCase_latin s).
Proof.
  unfold alphabetic, basic_latin, toLowerCase_latin.
  rewrite !Forall_forall. intros H. split.
  - intros c Hc. specialize (H c Hc). lia.
  - intros c Hc. apply in_map_iff in Hc. destruct Hc as [d [<- Hd]].
    specialize (H d Hd). unfold lower_unit, line_terminator.
    destruct ((65 <=? d) && (d <=? 90)) eqn:E.
    + apply andb_true_iff in E. destruct E as [E1 E2].
      apply Z.leb_le in E1. apply Z.leb_le in E2. lia.
    + lia.
Qed.

Section Format.

Variable toLowerCase : jsstring -> jsstring.

(** Whenever the lowercased name is not empty and holds no line
    terminator, the code matches the format. *)
Lemma format_general (s : jsstring) :
  toLowerCase s <> [] ->
  Forall (fun c => ~ line_terminator c) (toLowerCase s) ->
  exists code,
    generateProductCode toLowerCase s = Return code /\ matches_format code.
Proof.
  intros Hne Hlt.
  destruct (generate_shape toLowerCase s Hne)
    as (i & j & rest & _ & _ & Hij & _ & Hlast & Hg).
  eexists. split; [exact Hg|].
  destruct (number_to_string_digits i ltac:(lia)) as [Hd1 Hn1].
  destruct (number_to_string_digits j ltac:(lia)) as [Hd2 Hn2].
  rewrite <- Hlast.
  exists (slice (sha1_hex s) 0 8), (number_to_string i),
         (spec_concat (toLowerCase s)), (number_to_string j).
  split; [reflexivity|].
  split; [apply hash8_length|]. split; [apply hash8_lower|].
  repeat split; try assumption.
  apply Forall_forall. intros c Hc. apply spec_concat_In in Hc.
  rewrite Forall_forall in Hlt. apply Hlt. assumption.
Qed.

(** C9.  For every non-empty alphabetic input with at least one ascending
    pair of adjacent characters (in the input as given or as lowercased)
    the code matches [^[0-9a-f]{8}-\d+.*\d+$].  The ascending pair is not
    used: [format_general] gives the format without it. *)
Theorem format_regexp (s : jsstring) :
  lowercases_basic_latin toLowerCase ->
  s <> [] -> alphabetic s ->
  ascending_pair s \/ ascending_pair (toLowerCase s) ->
  exists code,
    generateProductCode toLowerCase s = Return code /\ matches_format code.
Proof.
  intros Hlow Hs Halpha _.
  destruct (alphabetic_lower s Halpha) as [Hlatin Hlt].
  apply format_general.
  - rewrite (Hlow s Hlatin). apply toLowerCase_latin_nonempty. assumption.
  - rewrite (Hlow s Hlatin). assumption.
Qed.

End Format.

Lemma format_regexp_witness :
  exists code,
    generateProductCode toLowerCase_latin (js "IPhone") = Return code /\
    matches_format code.
Proof.
  apply (format_regexp toLowerCase_latin (js "IPhone")
           toLowerCase_latin_basic).
  - discriminate.
  - unfold alphabetic, js. simpl. repeat constructor; lia.
  - right. exists 0. split; [lia|]. split; reflexivity.
Defined.

(** * Calls in a running process *)

(** The body of [generateProductCode] touches one kind of state: the [Hash]
    object that [crypto.createHash] makes, which [update] extends and
    [digest] closes.  Here the function is embedded with that state
    explicit, next to everything else a process holds, so that what a call
    returns can be compared between calls made in different states. *)

(** A [Hash] object: the bytes written to it, and whether [digest] has been
    called on it. *)
Record hash_object : Type := mk_hash
  { written : list Z; finalized : bool }.

(** What a call can throw: the [TypeError] of reading a property of
    [undefined], or the error of using a [Hash] object after [digest]. *)
Inductive thrown : Type :=
| TypeErrorThrown
| HashFinalizedError.

Inductive call_result : Type :=
| Returned (v : jsstring)
| Threw (e : thrown).

(** [l] with its element at index [n] replaced. *)
Fixpoint set_nth {T : Type} (n : nat) (x : T) (l : list T) : list T :=
  match l, n with
  | [], _ => []
  | _ :: rest, O => x :: rest
  | y :: rest, S n' => y :: set_nth n' x rest
  end.

Section Process.

Variable toLowerCase : jsstring -> jsstring.

(** Everything of the process that is not a [Hash] object: the clock, the
    random generator, the variables of the modules. *)
Variable ambient : Type.

Record process : Type := mk_process
  { hashes : list hash_object; others : ambient }.

(** [crypto.createHash('sha1')]: a new object, known by its index. *)
Definition createHash (p : process) : nat * process :=
  (List.length (hashes p),
   mk_process (hashes p ++ [mk_hash [] false]) (others p)).

(** [hash.update(s)]: the UTF-8 bytes of [s] are added to the object;
    [None] when the call throws. *)
Definition hash_update (h : nat) (s : jsstring) (p : process)
  : option process :=
  match nth_error (hashes p) h with
  | Some o =>
      if finalized o then None
      else Some (mk_process
                   (set_nth h (mk_hash (written o ++ utf8_encode s) false)
                            (hashes p))
                   (others p))
  | None => None
  end.

(** [hash.digest('hex')]: the digest of the bytes written, and the object
    closed; [None] when the call throws. *)
Definition hash_digest_hex (h : nat) (p : process)
  : option (jsstring * process) :=
  match nth_error (hashes p) h with
  | Some o =>
      if finalized o then None
      else Some (SHA1.hex (SHA1.digest (written o)),
                 mk_process (set_nth h (mk_hash (written o) true) (hashes p))
                            (others p))
  | None => None
  end.

(** A call of [generateProductCode(productName)] in the state [p]: what it
    returns or throws, and the state it leaves. *)
Definition generateProductCode_call (p : process) (productName : jsstring)
  : call_result * process :=
  let lower := toLowerCase productName in
  let (maxLen, substrings) := scan lower 0 0 [] in
  let concat := join (map str substrings) in
  match nth_error substrings 0 with
  | None => (Threw TypeErrorThrown, p)
  | Some s0 =>
      let first := start s0 in
      let last := first + maxLen - 1 in
      let (h, p1) := createHash p in
      match hash_update h productName p1 with
      | None => (Threw HashFinalizedError, p1)
      | Some p2 =>
          match hash_digest_hex h p2 with
          | None => (Threw HashFinalizedError, p2)
          | Some (hex, p3) =>
              let hash := slice hex 0 8 in
              (Returned (hash ++ js "-" ++ number_to_string first ++ concat
                              ++ number_to_string last), p3)
          end
      end
  end.

Lemma nth_error_last {T} (l : list T) (x : T) :
  nth_error (l ++ [x]) (List.length l) = Some x.
Proof.
  rewrite nth_error_app2 by lia. rewrite Nat.sub_diag. reflexivity.
Qed.

Lemma set_nth_last {T} (l : list T) (x y : T) :
  set_nth (List.length l) y (l ++ [x]) = l ++ [y].
Proof.
  induction l as [|z l IH]; simpl; [reflexivity|]. rewrite IH. reflexivity.
Qed.

(** The three calls on the new object never throw, whatever the process
    holds, and give the digest of the name alone. *)
Lemma fresh_hash (p : process) (s : jsstring) :
  exists p2 p3,
    hash_update (fst (createHash p)) s (snd (createHash p)) = Some p2 /\
    hash_digest_hex (fst (createHash p)) p2 = Some (sha1_hex s, p3) /\
    hashes p3 = hashes p ++ [mk_hash (utf8_encode s) true] /\
    others p3 = others p.
Proof.
  unfold createHash. cbn [fst snd].
  unfold hash_update. cbn [hashes others].
  rewrite nth_error_last. cbn [finalized written]. rewrite set_nth_last.
  eexists. eexists. split; [reflexivity|].
  unfold hash_digest_hex. cbn [hashes others].
  rewrite nth_error_last. cbn [finalized written]. rewrite set_nth_last.
  split; [reflexivity|]. split; reflexivity.
Qed.

(** What a call returns or throws is what the function of the name alone
    says, in every state of the process. *)
Lemma call_result_pure (p : process) (s : jsstring) :
  fst (generateProductCode_call p s) =
  match generateProductCode toLowerCase s with
  | Return code => Returned code
  | ThrowTypeError => Threw TypeErrorThrown
  end.
Proof.
  unfold generateProductCode_call, generateProductCode.
  destruct (scan (toLowerCase s) 0 0 []) as [maxLen substrings].
  destruct (nth_error substrings 0) as [s0|]; [|reflexivity].
  destruct (fresh_hash p s) as (p2 & p3 & Hu & Hd & _ & _).
  destruct (createHash p) as [h p1]. cbn [fst snd] in Hu, Hd.
  rewrite Hu, Hd. reflexivity.
Qed.

(** What a call leaves behind: one more [Hash] object, closed, when it
    returns; nothing when it throws.  The objects that were there and the
    rest of the process are as before. *)
Lemma call_effect (p : process) (s : jsstring) :
  others (snd (generateProductCode_call p s)) = others p /\
  (hashes (snd (generateProductCode_call p s)) = hashes p \/
   hashes (snd (generateProductCode_call p s))
     = hashes p ++ [mk_hash (utf8_encode s) true]).
Proof.
  unfold generateProductCode_call.
  destruct (scan (toLowerCase s) 0 0 []) as [maxLen substrings].
  destruct (nth_error substrings 0) as [s0|];
    [|split; [reflexivity | left; reflexivity]].
  destruct (fresh_hash p s) as (p2 & p3 & Hu & Hd & Hh & Ho).
  destruct (createHash p) as [h p1]. cbn [fst snd] in Hu, Hd.
  rewrite Hu, Hd. cbn [snd]. split; [assumption | right; assumption].
Qed.

(** C7.  Two calls on the same input yield the same output: the second
    call, made in the state the first one left, returns (or throws) what
    the first did; and so do two calls made in any two states of the
    process, whatever [Hash] objects, clock or other state they hold. *)
Theorem deterministic (p p' : process) (s : jsstring) :
  fst (generateProductCode_call (snd (generateProductCode_call p s)) s)
    = fst (generateProductCode_call p s) /\
  fst (generateProductCode_call p' s) = fst (generateProductCode_call p s).
Proof.
  rewrite !call_result_pure. split; reflexivity.
Qed.

End Process.

Example two_calls :
  let p := mk_process unit [mk_hash [1; 2; 3] false; mk_hash [] true] tt in
  let first_call := generateProductCode_call toLowerCase_latin unit p (js "cba") in
  let second_call :=
    generateProductCode_call toLowerCase_latin unit (snd first_call) (js "cba") in
  fst first_call = Returned (js "d9f0509f-0cba0") /\
  fst second_call = Returned (js "d9f0509f-0cba0") /\
  hashes unit (snd second_call)
  = [mk_hash [1; 2; 3] false; mk_hash [] true;
     mk_hash [99; 98; 97] true; mk_hash [99; 98; 97] true].
Proof. vm_compute. repeat split. Qed.

(** * Further properties of the scan *)

(** ** The runs the loop visits tile the string *)

Lemma ascends_iff_false s k :
  ascends s k = false -> jslength s <= k + 1 \/ exceeds_previous s k = false.
Proof.
  rewrite ascends_exceeds. intros H. apply andb_false_iff in H.
  destruct H as [H|H]; [left; apply Z.ltb_ge; assumption | right; assumption].
Qed.

(** Induction along the iterations of the outer loop: from a start position
    [a] the loop visits the run [(a, extend_run s a)] and goes on from the
    index after it. *)
Lemma runs_from_induction (s : jsstring) (P : Z -> list (Z * Z) -> Prop) :
  (forall a, jslength s <= a -> P a []) ->
  (forall a,
     0 <= a < jslength s -> run_start s a ->
     a <= extend_run s a < jslength s ->
     P (extend_run s a + 1) (runs_from s (extend_run s a + 1)) ->
     P a ((a, extend_run s a) :: runs_from s (extend_run s a + 1))) ->
  forall a, 0 <= a -> (a < jslength s -> run_start s a) ->
  P a (runs_from s a).
Proof.
  intros Hend Hstep.
  assert (forall (m : nat) a, 0 <= a -> jslength s - a <= Z.of_nat m ->
            (a < jslength s -> run_start s a) -> P a (runs_from s a)) as H.
  { induction m as [|m IH]; intros a Ha Hm Hstart.
    - rewrite runs_from_end by lia. apply Hend. lia.
    - destruct (Z_lt_le_dec a (jslength s)) as [Hlt|Hge].
      + pose proof (extend_run_ge s a) as Hge.
        pose proof (extend_run_lt s a Hlt) as Hlt'.
        pose proof (extend_run_stops s a) as Hstop.
        rewrite runs_from_step by (try apply Hstart; lia).
        apply Hstep; [lia | apply Hstart; lia | lia |].
        apply IH; [lia | lia |].
        intros Hn. right.
        replace (extend_run s a + 1 - 1) with (extend_run s a) by lia.
        apply ascends_iff_false in Hstop. destruct Hstop; [lia | assumption].
      + rewrite runs_from_end by lia. apply Hend. lia. }
  intros a Ha Hstart. apply (H (Z.to_nat (jslength s - a))); [lia | lia | assumption].
Qed.

(** A run ends before the next one starts. *)
Definition before (r1 r2 : Z * Z) : Prop := snd r1 < fst r2.

Lemma runs_from_sorted s a :
  0 <= a -> (a < jslength s -> run_start s a) ->
  StronglySorted before (runs_from s a) /\
  Forall (fun r => a <= fst r <= snd r) (runs_from s a).
Proof.
  apply (runs_from_induction s
           (fun a l => StronglySorted before l /\
                       Forall (fun r => a <= fst r <= snd r) l)).
  - intros b _. split; constructor.
  - intros b Hb _ He [Hs Hf]. split.
    + constructor; [assumption|].
      apply (Forall_impl _ (P := fun r => extend_run s b + 1 <= fst r <= snd r));
        [|assumption].
      intros r Hr. unfold before. simpl. lia.
    + constructor; [simpl; lia|].
      apply (Forall_impl _ (P := fun r => extend_run s b + 1 <= fst r <= snd r));
        [|assumption].
      intros r Hr. lia.
Qed.

Lemma runs_from_tile s a :
  0 <= a -> (a < jslength s -> run_start s a) ->
  flat_map (substring s) (runs_from s a) = skipn (Z.to_nat a) s.
Proof.
  apply (runs_from_induction s
           (fun a l => flat_map (substring s) l = skipn (Z.to_nat a) s)).
  - intros b Hb. symmetry. apply skipn_all2. unfold jslength in Hb. lia.
  - intros b Hb _ He IH. simpl flat_map. rewrite IH.
    unfold substring, run_length. cbn [fst snd].
    replace (Z.to_nat (extend_run s b + 1))
      with (Z.to_nat (extend_run s b - b + 1) + Z.to_nat b)%nat by lia.
    rewrite <- skipn_skipn. apply firstn_skipn.
Qed.

Lemma runs_from_cover s a :
  0 <= a -> (a < jslength s -> run_start s a) ->
  forall k, a <= k < jslength s ->
  exists r, In r (runs_from s a) /\ fst r <= k <= snd r.
Proof.
  apply (runs_from_induction s
           (fun a l => forall k, a <= k < jslength s ->
                       exists r, In r l /\ fst r <= k <= snd r)).
  - intros b Hb k Hk. lia.
  - intros b Hb _ He IH k Hk.
    destruct (Z_le_gt_dec k (extend_run s b)) as [Hle|Hgt].
    + exists (b, extend_run s b). split; [left; reflexivity | simpl; lia].
    + destruct (IH k ltac:(lia)) as [r [Hin Hr]].
      exists r. split; [right; assumption | assumption].
Qed.

Lemma maximal_runs_sorted s : StronglySorted before (maximal_runs s).
Proof.
  rewrite <- runs_from_0.
  apply runs_from_sorted; [lia | intros _; left; reflexivity].
Qed.

Lemma maximal_runs_tile s : flat_map (substring s) (maximal_runs s) = s.
Proof.
  rewrite <- runs_from_0, runs_from_tile; [reflexivity | lia |].
  intros _. left. reflexivity.
Qed.

(** Every strictly increasing substring lies inside one maximal run. *)
Lemma increasing_in_run s i j :
  increasing s i j = true ->
  exists a b, In (a, b) (maximal_runs s) /\ a <= i /\ j <= b.
Proof.
  intros Hinc. apply increasing_iff in Hinc. destruct Hinc as [Hij [Hj Hall]].
  destruct (runs_from_cover s 0 ltac:(lia) ltac:(intros _; left; reflexivity)
              i ltac:(lia)) as [[a b] [Hin Hab]].
  rewrite runs_from_0 in Hin. simpl in Hab.
  exists a, b. split; [assumption|]. split; [lia|].
  apply filter_In in Hin. destruct Hin as [_ Hm].
  apply maximal_run_iff in Hm. destruct Hm as [_ [_ Hb]].
  destruct (Z_le_gt_dec j b) as [Hle|Hgt]; [assumption|].
  pose proof (extend_run_stops s a) as Hstop. rewrite <- Hb in Hstop.
  assert (ascends s b = true) as Hasc
    by (apply ascends_iff; split; [lia | apply Hall; lia]).
  congruence.
Qed.

Lemma StronglySorted_filter {T} (R : T -> T -> Prop) (p : T -> bool) l :
  StronglySorted R l -> StronglySorted R (filter p l).
Proof.
  induction 1 as [|x l Hs IH Hf]; simpl; [constructor|].
  destruct (p x); [|assumption].
  constructor; [assumption|].
  rewrite Forall_forall in *. intros y Hy. apply filter_In in Hy.
  apply Hf. tauto.
Qed.

Lemma tied_runs_sorted s : StronglySorted before (tied_runs s).
Proof. apply StronglySorted_filter, maximal_runs_sorted. Qed.

Lemma tied_runs_maximal s r : In r (tied_runs s) -> In r (maximal_runs s).
Proof. intros H. apply filter_In in H. tauto. Qed.

Lemma greatest_length_ge s i j :
  increasing s i j = true -> j - i + 1 <= greatest_length s.
Proof.
  intros Hinc. destruct (increasing_in_run s i j Hinc) as (a & b & Hin & Ha & Hb).
  apply greatest_ge in Hin. unfold run_length in Hin. simpl in Hin.
  unfold greatest_length. lia.
Qed.

Lemma greatest_length_bounds s :
  s <> [] -> 1 <= greatest_length s <= jslength s.
Proof.
  intros Hne. pose proof (tied_runs_nonempty s Hne) as Ht.
  destruct (tied_runs s) as [|[i j] rest] eqn:E; [congruence|].
  assert (In (i, j) (tied_runs s)) as Hin by (rewrite E; left; reflexivity).
  apply tied_runs_In in Hin. lia.
Qed.

(** ** What the loop leaves in [maxLen] and [substrings] *)

(** X1.  No strictly increasing substring of the scanned string is longer
    than [maxLen]. *)
Theorem maxLen_longest (lower : jsstring) (i j : Z) :
  increasing lower i j = true ->
  j - i + 1 <= fst (scan lower 0 0 []).
Proof.
  intros Hinc. rewrite scan_spec. cbn [fst].
  apply greatest_length_ge. assumption.
Qed.

(** X2.  On a non-empty string the first recorded run is a strictly
    increasing substring of length [maxLen], and no strictly increasing
    substring of that length starts further left. *)
Theorem first_run_leftmost (lower : jsstring) :
  lower <> [] ->
  exists r rest,
    snd (scan lower 0 0 []) = r :: rest /\
    let maxLen := fst (scan lower 0 0 []) in
    increasing lower (start r) (start r + maxLen - 1) = true /\
    forall i j,
      increasing lower i j = true -> j - i + 1 = maxLen -> start r <= i.
Proof.
  intros Hne. rewrite scan_spec. cbn [fst snd].
  pose proof (tied_runs_nonempty lower Hne) as Ht.
  pose proof (tied_runs_sorted lower) as Hsorted.
  pose proof (tied_runs_In lower) as Hbounds.
  pose proof (tied_runs_maximal lower) as Hmax.
  destruct (tied_runs lower) as [|[a b] rest] eqn:E; [congruence|].
  exists (to_run lower (a, b)), (map (to_run lower) rest).
  split; [reflexivity|]. cbn [to_run start fst snd].
  destruct (Hbounds a b (or_introl eq_refl)) as (Hab & Hb & Hlast).
  split.
  - rewrite <- Hlast.
    specialize (Hmax (a, b) (or_introl eq_refl)).
    apply filter_In in Hmax. destruct Hmax as [_ Hm].
    unfold maximal_run in Hm. apply andb_true_iff in Hm.
    destruct Hm as [Hm _]. apply andb_true_iff in Hm. tauto.
  - intros i j Hinc Hlen.
    destruct (increasing_in_run lower i j Hinc) as (x & y & Hin & Hx & Hy).
    pose proof (greatest_ge _ _ Hin) as Hle.
    unfold run_length in Hle. cbn [fst snd] in Hle.
    fold (greatest_length lower) in Hle.
    assert (x = i /\ y = j) as [-> ->] by lia.
    assert (In (i, j) (tied_runs lower)) as Hin'.
    { apply filter_In. split; [assumption|]. apply Z.eqb_eq.
      unfold run_length. cbn [fst snd]. fold (greatest_length lower). lia. }
    rewrite E in Hin'. destruct Hin' as [Heq|Hin'].
    + injection Heq as -> ->. lia.
    + apply StronglySorted_inv in Hsorted. destruct Hsorted as [_ Hf].
      rewrite Forall_forall in Hf. specialize (Hf _ Hin').
      unfold before in Hf. cbn [fst snd] in Hf. lia.
Qed.

(** X3.  On a non-empty string [maxLen] ends between 1 and the length of
    the string. *)
Theorem maxLen_bounds (lower : jsstring) :
  lower <> [] ->
  1 <= fst (scan lower 0 0 []) <= jslength lower.
Proof.
  intros Hne. rewrite scan_spec. cbn [fst].
  apply greatest_length_bounds. assumption.
Qed.

Lemma slice_length s i j :
  0 <= i <= j -> j < jslength s ->
  Z.of_nat (List.length (slice s i (j + 1))) = j - i + 1.
Proof.
  intros Hij Hj. rewrite slice_substring by lia.
  unfold substring, run_length. cbn [fst snd].
  rewrite length_firstn, length_skipn. unfold jslength in Hj. lia.
Qed.

(** X4.  Every recorded run lies inside the string, has exactly [maxLen]
    characters, is the slice of the string at its [start], and is a
    maximal strictly increasing run. *)
Theorem recorded_run_shape (lower : jsstring) (r : run) :
  In r (snd (scan lower 0 0 [])) ->
  let maxLen := fst (scan lower 0 0 []) in
  0 <= start r /\ start r + maxLen <= jslength lower /\
  str r = slice lower (start r) (start r + maxLen) /\
  Z.of_nat (List.length (str r)) = maxLen /\
  maximal_run lower (start r, start r + maxLen - 1) = true.
Proof.
  rewrite scan_spec. cbn [fst snd]. intros Hin.
  apply in_map_iff in Hin. destruct Hin as [[a b] [<- Hin]].
  pose proof (tied_runs_maximal lower _ Hin) as Hm.
  apply tied_runs_In in Hin. destruct Hin as (Hab & Hb & Hlast).
  cbn [to_run start str fst snd].
  replace (a + greatest_length lower) with (b + 1) by lia.
  replace (b + 1 - 1) with b by lia.
  repeat split; try lia.
  - rewrite slice_length; lia.
  - apply filter_In in Hm. tauto.
Qed.

(** X5.  The recorded runs are in left-to-right order and do not overlap:
    a run ends before any later one starts. *)
Theorem recorded_runs_disjoint (lower : jsstring) :
  StronglySorted
    (fun r1 r2 => start r1 + fst (scan lower 0 0 []) <= start r2)
    (snd (scan lower 0 0 [])).
Proof.
  rewrite scan_spec. cbn [fst snd].
  pose proof (tied_runs_sorted lower) as Hsorted.
  pose proof (tied_runs_In lower) as Hbounds.
  induction Hsorted as [|[a b] l Hs IH Hf]; simpl; [constructor|].
  constructor.
  - apply IH. intros i j Hin. apply Hbounds. right. assumption.
  - rewrite Forall_forall in *. intros r Hr.
    apply in_map_iff in Hr. destruct Hr as [[x y] [<- Hin]].
    specialize (Hf _ Hin). unfold before in Hf.
    specialize (Hbounds a b (or_introl eq_refl)).
    cbn [to_run start fst snd] in *. lia.
Qed.

Lemma sorted_runs_fit (G n : Z) (l : list (Z * Z)) : forall a,
  0 <= G ->
  StronglySorted before l ->
  (forall r, In r l -> a <= fst r /\ snd r < n /\ snd r = fst r + G - 1) ->
  G * Z.of_nat (List.length l) <= Z.max (n - a) 0.
Proof.
  induction l as [|[x y] l IH]; intros a HG Hs Hall.
  - simpl. lia.
  - apply StronglySorted_inv in Hs. destruct Hs as [Hs Hf].
    destruct (Hall (x, y) (or_introl eq_refl)) as (Hx & Hy & Hlen).
    cbn [fst snd] in *.
    assert (G * Z.of_nat (List.length l) <= Z.max (n - (y + 1)) 0) as Hrec.
    { apply IH; [assumption | assumption |].
      intros r Hr. rewrite Forall_forall in Hf. specialize (Hf r Hr).
      unfold before in Hf. cbn [fst snd] in Hf.
      destruct (Hall r (or_intror Hr)) as (_ & H2 & H3). lia. }
    simpl List.length. lia.
Qed.

Lemma join_cons (x : jsstring) (l : list jsstring) :
  join (x :: l) = x ++ join l.
Proof. reflexivity. Qed.

Lemma join_runs_length s G (l : list (Z * Z)) :
  (forall i j, In (i, j) l ->
     0 <= i <= j /\ j < jslength s /\ j = i + G - 1) ->
  Z.of_nat (List.length (join (map str (map (to_run s) l))))
  = G * Z.of_nat (List.length l).
Proof.
  induction l as [|[a b] l IH]; intros Hb.
  - simpl. lia.
  - cbn [map]. rewrite join_cons, length_app. cbn [List.length].
    rewrite Nat2Z.inj_add, IH
      by (intros i j Hin; apply Hb; right; assumption).
    destruct (Hb a b (or_introl eq_refl)) as (H1 & H2 & H3).
    cbn [to_run str fst snd]. rewrite slice_length by lia. lia.
Qed.

(** X6.  [concat] has [maxLen] characters for each recorded run, and is
    never longer than the string that was scanned. *)
Theorem concat_length (lower : jsstring) :
  let maxLen := fst (scan lower 0 0 []) in
  let substrings := snd (scan lower 0 0 []) in
  Z.of_nat (List.length (join (map str substrings)))
    = maxLen * Z.of_nat (List.length substrings) /\
  Z.of_nat (List.length (join (map str substrings))) <= jslength lower.
Proof.
  cbv zeta. rewrite scan_spec. cbn [fst snd].
  pose proof (tied_runs_In lower) as Hbounds.
  pose proof (join_runs_length lower (greatest_length lower)
                (tied_runs lower) Hbounds) as Hlen.
  rewrite length_map.
  split; [assumption|]. rewrite Hlen.
  pose proof (greatest_nonneg (maximal_runs lower)) as HG.
  fold (greatest_length lower) in HG.
  pose proof (sorted_runs_fit (greatest_length lower) (jslength lower)
                (tied_runs lower) 0 HG (tied_runs_sorted lower)) as Hfit.
  assert (0 <= jslength lower) by (unfold jslength; lia).
  rewrite Z.sub_0_r, Z.max_l in Hfit by lia. apply Hfit.
  intros [i j] Hin. apply Hbounds in Hin. cbn [fst snd]. lia.
Qed.

(** The iterations of the outer loop from index [i] on: each one starts
    where the previous run ended, takes the run the inner loop reaches, and
    the loop stops at the end of the string. *)
Fixpoint iterations (lower : jsstring) (i : Z) (visited : list (Z * Z))
  : Prop :=
  match visited with
  | [] => jslength lower <= i
  | (a, b) :: rest =>
      a = i /\ i < jslength lower /\ b = extend_run lower i /\
      iterations lower (b + 1) rest
  end.

Lemma runs_from_iterations s a :
  0 <= a -> (a < jslength s -> run_start s a) ->
  iterations s a (runs_from s a).
Proof.
  apply (runs_from_induction s (fun a l => iterations s a l)).
  - intros b Hb. exact Hb.
  - intros b Hb _ He IH. simpl. repeat split; [lia | assumption].
Qed.

(** X7.  The iterations of the loop visit, from left to right, runs that
    do not overlap and that together make up the whole string; [maxLen]
    and [substrings] result from applying the update of the loop body to
    each of them in turn. *)
Theorem scan_tiles (lower : jsstring) :
  exists visited,
    iterations lower 0 visited /\
    scan lower 0 0 [] = fold_left (record lower) visited (0, []) /\
    StronglySorted before visited /\
    flat_map (substring lower) visited = lower.
Proof.
  exists (maximal_runs lower). split.
  - rewrite <- runs_from_0.
    apply runs_from_iterations; [lia | intros _; left; reflexivity].
  - split; [apply scan_maximal_runs|].
    split; [apply maximal_runs_sorted | apply maximal_runs_tile].
Qed.

(** ** Names whose runs all have the same length *)

Lemma tied_all (l : list (Z * Z)) (c : Z) :
  l <> [] -> 0 <= c -> (forall r, In r l -> run_length r = c) ->
  greatest l = c /\ tied l = l.
Proof.
  intros Hne Hc Hall.
  assert (greatest l = c) as HG.
  { destruct (greatest_attained l Hne) as [r [Hin Hr]].
    - intros r Hr. rewrite (Hall r Hr). assumption.
    - rewrite <- Hr. apply Hall. assumption. }
  split; [assumption|]. unfold tied. rewrite HG.
  clear Hne HG. induction l as [|r l IH]; [reflexivity|].
  simpl. rewrite (Hall r (or_introl eq_refl)), Z.eqb_refl. f_equal.
  apply IH. intros x Hx. apply Hall. right. assumption.
Qed.

Lemma maximal_runs_head s :
  s <> [] -> exists rest, maximal_runs s = (0, extend_run s 0) :: rest.
Proof.
  intros Hne. rewrite <- runs_from_0, runs_from_step.
  - eexists. reflexivity.
  - destruct s; [congruence|]. unfold jslength. simpl List.length. lia.
  - left. reflexivity.
Qed.

Section UniformRuns.

Variable toLowerCase : jsstring -> jsstring.

(** When every maximal run of the lowercased name has the same length [c],
    all of them tie: [concat] is the whole lowercased name, [first] is 0
    and [last] is [c - 1]. *)
Lemma uniform_runs (s : jsstring) (c : Z) :
  toLowerCase s <> [] ->
  (forall r, In r (maximal_runs (toLowerCase s)) -> run_length r = c) ->
  generateProductCode toLowerCase s =
    Return (slice (sha1_hex s) 0 8 ++ js "-" ++ js "0" ++ toLowerCase s
            ++ number_to_string (c - 1)).
Proof.
  intros Hne Hall.
  destruct (maximal_runs_head _ Hne) as [tl Hhead].
  assert (1 <= c) as Hc.
  { rewrite <- (Hall (0, extend_run (toLowerCase s) 0))
      by (rewrite Hhead; left; reflexivity).
    pose proof (extend_run_ge (toLowerCase s) 0).
    unfold run_length. simpl. lia. }
  destruct (tied_all (maximal_runs (toLowerCase s)) c) as [HG HT];
    [rewrite Hhead; discriminate | lia | assumption |].
  destruct (generate_shape toLowerCase s Hne)
    as (i & j & rest & Ht & _ & _ & _ & _ & Hg).
  rewrite Hg. unfold spec_concat, tied_runs, greatest_length in *.
  rewrite HT in *. rewrite HG, maximal_runs_tile.
  rewrite Hhead in Ht. injection Ht as <- _ _. reflexivity.
Qed.

(** X8.  When the lowercased name is strictly increasing from its first
    character to its last, the code is the hash, a dash, [0], the whole
    lowercased name and the index of its last character. *)
Theorem ascending_name (s : jsstring) :
  toLowerCase s <> [] ->
  (forall k, 0 <= k -> k + 1 < jslength (toLowerCase s) ->
             exceeds_previous (toLowerCase s) k = true) ->
  generateProductCode toLowerCase s =
    Return (slice (sha1_hex s) 0 8 ++ js "-" ++ js "0" ++ toLowerCase s
            ++ number_to_string (jslength (toLowerCase s) - 1)).
Proof.
  intros Hne Hasc. apply uniform_runs; [assumption|].
  intros [a b] Hin. apply filter_In in Hin. destruct Hin as [_ Hm].
  apply maximal_run_iff in Hm. destruct Hm as (Ha & Hstart & ->).
  assert (a = 0) as ->.
  { destruct (Z.eq_dec a 0) as [Hz|Hnz]; [assumption|].
    destruct Hstart as [->|Hs]; [reflexivity|].
    rewrite Hasc in Hs by lia. discriminate. }
  rewrite (extend_run_unique _ 0 (jslength (toLowerCase s) - 1)).
  - unfold run_length. simpl. lia.
  - lia.
  - intros k Hk. apply ascends_iff. split; [lia | apply Hasc; lia].
  - rewrite ascends_exceeds.
    replace (jslength (toLowerCase s) - 1 + 1 <? jslength (toLowerCase s))
      with false by (symmetry; apply Z.ltb_ge; lia).
    reflexivity.
Qed.

(** X9.  When no character of the lowercased name exceeds the one before
    it, every character is a run of its own and all of them tie: the code
    is the hash, a dash, [0], the whole lowercased name and [0]. *)
Theorem flat_name (s : jsstring) :
  toLowerCase s <> [] ->
  (forall k, 0 <= k -> k + 1 < jslength (toLowerCase s) ->
             exceeds_previous (toLowerCase s) k = false) ->
  generateProductCode toLowerCase s =
    Return (slice (sha1_hex s) 0 8 ++ js "-" ++ js "0" ++ toLowerCase s
            ++ js "0").
Proof.
  intros Hne Hflat.
  assert (forall r, In r (maximal_runs (toLowerCase s)) -> run_length r = 1)
    as Hone; [|exact (uniform_runs s 1 Hne Hone)].
  intros [a b] Hin. apply filter_In in Hin. destruct Hin as [_ Hm].
  apply maximal_run_iff in Hm. destruct Hm as (Ha & _ & ->).
  rewrite (extend_run_unique _ a a).
  - unfold run_length. simpl. lia.
  - lia.
  - intros k Hk. lia.
  - rewrite ascends_exceeds.
    destruct (Z.ltb_spec (a + 1) (jslength (toLowerCase s))); [|reflexivity].
    rewrite Hflat by lia. reflexivity.
Qed.

(** X10.  The call throws exactly when the lowercased name is empty. *)
Theorem throws_iff_empty (s : jsstring) :
  generateProductCode toLowerCase s = ThrowTypeError <-> toLowerCase s = [].
Proof.
  split.
  - intros Hthrow. destruct (toLowerCase s) as [|c l] eqn:E; [reflexivity|].
    assert (toLowerCase s <> []) as Hne by (rewrite E; discriminate).
    destruct (generate_shape toLowerCase s Hne)
      as (i & j & rest & _ & _ & _ & _ & _ & Hg).
    rewrite Hg in Hthrow. discriminate.
  - intros Hempty. unfold generateProductCode. rewrite Hempty. reflexivity.
Qed.

End UniformRuns.

Lemma maxLen_longest_witness :
  increasing (js "abzcdz") 3 5 = true /\
  5 - 3 + 1 <= fst (scan (js "abzcdz") 0 0 []).
Proof.
  split; [reflexivity|].
  apply (maxLen_longest (js "abzcdz") 3 5). reflexivity.
Defined.

Lemma first_run_leftmost_witness :
  exists r rest,
    snd (scan (js "abzcdz") 0 0 []) = r :: rest /\
    increasing (js "abzcdz") (start r)
               (start r + fst (scan (js "abzcdz") 0 0 []) - 1) = true /\
    forall i j,
      increasing (js "abzcdz") i j = true ->
      j - i + 1 = fst (scan (js "abzcdz") 0 0 []) -> start r <= i.
Proof.
  apply (first_run_leftmost (js "abzcdz")). discriminate.
Defined.

Lemma maxLen_bounds_witness :
  1 <= fst (scan (js "iphone") 0 0 []) <= jslength (js "iphone").
Proof.
  apply (maxLen_bounds (js "iphone")). discriminate.
Defined.

Lemma recorded_run_shape_witness :
  0 <= 2 /\ 2 + fst (scan (js "iphone") 0 0 []) <= jslength (js "iphone") /\
  js "ho" = slice (js "iphone") 2 (2 + fst (scan (js "iphone") 0 0 [])) /\
  Z.of_nat (List.length (js "ho")) = fst (scan (js "iphone") 0 0 []) /\
  maximal_run (js "iphone") (2, 2 + fst (scan (js "iphone") 0 0 []) - 1)
    = true.
Proof.
  apply (recorded_run_shape (js "iphone") (mk_run (js "ho") 2)).
  vm_compute. right. left. reflexivity.
Defined.

Lemma ascending_name_witness :
  generateProductCode toLowerCase_latin (js "Ace") =
    Return (slice (sha1_hex (js "Ace")) 0 8 ++ js "-" ++ js "0"
            ++ toLowerCase_latin (js "Ace")
            ++ number_to_string (jslength (toLowerCase_latin (js "Ace")) - 1)).
Proof.
  apply (ascending_name toLowerCase_latin (js "Ace")).
  - discriminate.
  - intros k Hk0 Hk.
    assert (k = 0 \/ k = 1) as [-> | ->]
      by (change (jslength (toLowerCase_latin (js "Ace"))) with 3 in Hk; lia);
      reflexivity.
Defined.

Lemma flat_name_witness :
  generateProductCode toLowerCase_latin (js "Zoo") =
    Return (slice (sha1_hex (js "Zoo")) 0 8 ++ js "-" ++ js "0"
            ++ toLowerCase_latin (js "Zoo") ++ js "0").
Proof.
  apply (flat_name toLowerCase_latin (js "Zoo")).
  - discriminate.
  - intros k Hk0 Hk.
    assert (k = 0 \/ k = 1) as [-> | ->]
      by (change (jslength (toLowerCase_latin (js "Zoo"))) with 3 in Hk; lia);
      reflexivity.
Defined.

(** ** Names with digits, spaces and other characters *)

Lemma no_line_terminator_forallb (s : jsstring) :
  forallb (fun c => negb ((c =? 10) || (c =? 13) || (c =? 0x2028)
                          || (c =? 0x2029))) s = true ->
  Forall (fun c => ~ line_terminator c) s.
Proof.
  intros H. apply Forall_forall. intros c Hc.
  rewrite forallb_forall in H. specialize (H c Hc).
  apply negb_true_iff in H. rewrite !orb_false_iff in H.
  destruct H as [[[H1 H2] H3] H4].
  apply Z.eqb_neq in H1. apply Z.eqb_neq in H2.
  apply Z.eqb_neq in H3. apply Z.eqb_neq in H4.
  unfold line_terminator. lia.
Qed.

(** X19.  The code of every name whose lowercased form is not empty and
    holds no line terminator (letters, digits, spaces, punctuation)
    matches [^[0-9a-f]{8}-\d+.*\d+$]. *)
Theorem format_without_line_terminator
    (toLowerCase : jsstring -> jsstring) (s : jsstring) :
  toLowerCase s <> [] ->
  Forall (fun c => ~ line_terminator c) (toLowerCase s) ->
  exists code,
    generateProductCode toLowerCase s = Return code /\ matches_format code.
Proof.
  intros Hne Hlt. apply format_general; assumption.
Qed.

Lemma format_without_line_terminator_witness :
  exists code,
    generateProductCode toLowerCase_latin (js "iPhone 15 Pro") = Return code /\
    matches_format code.
Proof.
  apply (format_without_line_terminator toLowerCase_latin (js "iPhone 15 Pro")).
  - discriminate.
  - apply no_line_terminator_forallb. vm_compute. reflexivity.
Defined.

(** * The caller: [createProduct] *)

(** ** Request values *)

(** The handlers read a JSON request body.  Numbers are IEEE doubles; they
    are kept abstract, together with what the handlers do with them. *)
Section Json.

Variable number : Type.

Local Unset Elimination Schemes.

Inductive json : Type :=
| JNull
| JBool (b : bool)
| JNum (x : number)
| JStr (s : jsstring)
| JArr (items : list json)
| JObj (fields : list (jsstring * json)).

Local Set Elimination Schemes.

(** A value read from the request: [None] is [undefined]. *)
Definition value : Type := option json.

(** [!!v]; [number_truthy] is false on [0], [-0] and [NaN]. *)
Definition truthy (number_truthy : number -> bool) (v : value) : bool :=
  match v with
  | None => false
  | Some JNull => false
  | Some (JBool b) => b
  | Some (JNum x) => number_truthy x
  | Some (JStr s) => match s with [] => false | _ :: _ => true end
  | Some (JArr _) => true
  | Some (JObj _) => true
  end.

Fixpoint lookup (key : jsstring) (fields : list (jsstring * json)) : value :=
  match fields with
  | [] => None
  | (k, v) :: rest =>
      if list_eq_dec Z.eq_dec k key then Some v else lookup key rest
  end.

(** [v.key] for one of the keys the handlers read: an own property of an
    object, [undefined] on every other value (none of these keys is a
    property of a prototype). *)
Definition get_field (v : value) (key : string) : value :=
  match v with
  | Some (JObj fields) => lookup (js key) fields
  | _ => None
  end.

(** [Object.keys(v).length] for a value that is not [null] or
    [undefined]. *)
Definition keys_count (v : value) : Z :=
  match v with
  | Some (JObj fields) => Z.of_nat (List.length fields)
  | Some (JArr items) => Z.of_nat (List.length items)
  | Some (JStr s) => jslength s
  | _ => 0
  end.

End Json.

Arguments JNull {number}.
Arguments JBool {number} b.
Arguments JNum {number} x.
Arguments JStr {number} s.
Arguments JArr {number} items.
Arguments JObj {number} fields.
Arguments truthy {number} number_truthy v.
Arguments lookup {number} key fields.
Arguments get_field {number} v key.
Arguments keys_count {number} v.

(** ** Responses *)

(** What a [catch] block can receive: the [TypeError] of a throwing
    [generateProductCode], the [TypeError] of [Number] on a value that
    cannot be converted, the error of the [ObjectId] constructor, or the
    rejection of a database call, with its numeric [err.code] when it has
    one. *)
Inductive error : Type :=
| CodeGenerationError
| ConversionError
| ObjectIdError
| DatabaseError (code : option Z).

(** [err.code] *)
Definition error_code (e : error) : option Z :=
  match e with
  | DatabaseError code => code
  | _ => None
  end.

(** A promise of the database driver, settled. *)
Inductive outcome (A : Type) : Type :=
| Ok (a : A)
| Fail (code : option Z).

Arguments Ok {A} a.
Arguments Fail {A} code.

Section CreateProduct.

Variable toLowerCase : jsstring -> jsstring.

Variable number : Type.
Variable number_truthy : number -> bool.
Variable number_zero : number.
(** [Number(v)]; [None] when the conversion throws (an object or array
    that has no callable [valueOf] or [toString] left). *)
Variable to_number : value number -> option number.
(** [+(price * (1 - discount / 100)).toFixed(2)] *)
Variable final_price : number -> number -> number.

(** [new ObjectId(v)]: the constructor throws on some inputs ([None]) and
    draws on the process-wide generator on others. *)
Variable object_id : Type.
Variable id_generator : Type.
Variable ObjectId_new :
  value number -> id_generator -> option object_id * id_generator.

(** [new Date()] *)
Variable date : Type.
Variable clock : Type.
Variable Date_new : clock -> date * clock.

(** A document of the [categories] collection, and what [createProduct]
    inserts in [products]. *)
Record category : Type := mk_category
  { cat_id : object_id; cat_name : value number }.

Record product : Type := mk_product
  { p_name : value number;
    p_description : value number;
    p_price : number;
    p_discount : number;
    p_image : value number;
    p_status : value number;
    p_category : object_id;
    p_productCode : jsstring;
    p_createdAt : date;
    p_updatedAt : date }.

(** The database, with the two operations [createProduct] performs:
    [categories.findOne({ _id })], which only reads, and
    [products.insertOne(product)], which gives how the promise settles
    together with the database it leaves: a rejected insertion may or may
    not have written. *)
Variable database : Type.
Variable find_category : database -> object_id -> outcome (option category).
Variable insert_product :
  database -> product -> outcome object_id * database.

(** Everything outside the request that a call can read or change. *)
Record world : Type := mk_world
  { w_db : database; w_ids : id_generator; w_clock : clock }.

(** The JSON sent with status 201. *)
Record product_view : Type := mk_view
  { v_id : object_id;
    v_name : value number;
    v_description : value number;
    v_originalPrice : number;
    v_finalPrice : number;
    v_discount : number;
    v_image : value number;
    v_status : value number;
    v_category : object_id;
    v_categoryName : value number;
    v_productCode : jsstring }.

Inductive payload : Type :=
| Message (message : string)
| ServerError (e : error)
| Created (data : product_view).

Record response : Type := mk_response
  { res_status : Z; res_body : payload }.

(** The [catch] block of [createProduct]. *)
Definition create_catch (e : error) : response :=
  match error_code e with
  | Some 11000 => mk_response 409 (Message "Duplicate product code")
  | _ => mk_response 500 (ServerError e)
  end.

(** [generateProductCode(name)] on a value of the body: [name.toLowerCase]
    is a function only when [name] is a string. *)
Definition generate_for (name : value number) : completion :=
  match name with
  | Some (JStr s) => generateProductCode toLowerCase s
  | _ => ThrowTypeError
  end.

(** [a || b] *)
Definition or_else (a b : value number) : value number :=
  if truthy number_truthy a then a else b.

(** [createProduct(req, res)] with [req.body] as [body]: the world after
    the call and the response that was sent.  The calls of [console.error]
    are left out. *)
Definition createProduct (w : world) (body : value number)
  : world * response :=
  if negb (truthy number_truthy body) || (keys_count body =? 0) then
    (w, mk_response 400 (Message "Request body is required"))
  else
    let name := get_field body "name" in
    let description := get_field body "description" in
    let price := get_field body "price" in
    let discount := get_field body "discount" in
    let image := get_field body "image" in
    let status := get_field body "status" in
    let category := get_field body "category" in
    if negb (truthy number_truthy name)
       || negb (truthy number_truthy description)
       || negb (truthy number_truthy price)
       || negb (truthy number_truthy category) then
      (w, mk_response 400
            (Message "Missing required fields: name, description, price, category"))
    else
      match ObjectId_new category (w_ids w) with
      | (None, ids1) =>
          (mk_world (w_db w) ids1 (w_clock w), create_catch ObjectIdError)
      | (Some query_id, ids1) =>
      match find_category (w_db w) query_id with
      | Fail code =>
          (mk_world (w_db w) ids1 (w_clock w),
           create_catch (DatabaseError code))
      | Ok None =>
          (mk_world (w_db w) ids1 (w_clock w),
           mk_response 400 (Message "Invalid category"))
      | Ok (Some cat) =>
      match generate_for name with
      | ThrowTypeError =>
          (mk_world (w_db w) ids1 (w_clock w),
           create_catch CodeGenerationError)
      | Return productCode =>
      match to_number price with
      | None =>
          (mk_world (w_db w) ids1 (w_clock w), create_catch ConversionError)
      | Some price_number =>
      match to_number discount with
      | None =>
          (mk_world (w_db w) ids1 (w_clock w), create_catch ConversionError)
      | Some discount_converted =>
      let discount_number :=
        if number_truthy discount_converted then discount_converted
        else number_zero in
      match ObjectId_new category ids1 with
      | (None, ids2) =>
          (mk_world (w_db w) ids2 (w_clock w), create_catch ObjectIdError)
      | (Some category_id, ids2) =>
      let (createdAt, clock1) := Date_new (w_clock w) in
      let (updatedAt, clock2) := Date_new clock1 in
      let product :=
        mk_product name description price_number discount_number
          (or_else image (Some (JStr [])))
          (or_else status (Some (JStr (js "active"))))
          category_id productCode createdAt updatedAt in
      match insert_product (w_db w) product with
      | (Fail code, db') =>
          (mk_world db' ids2 clock2, create_catch (DatabaseError code))
      | (Ok insertedId, db') =>
          (mk_world db' ids2 clock2,
           mk_response 201
             (Created
                (mk_view insertedId (p_name product) (p_description product)
                   (p_price product)
                   (final_price (p_price product) (p_discount product))
                   (p_discount product) (p_image product) (p_status product)
                   (p_category product) (cat_name cat)
                   (p_productCode product))))
      end end end end end end end.

(** *** The path to status 201 *)

Lemma create_catch_status (e : error) :
  res_status (create_catch e) = 409 \/ res_status (create_catch e) = 500.
Proof.
  unfold create_catch. destruct (error_code e) as [code|]; [|right; reflexivity].
  destruct (Z.eq_dec code 11000) as [->|Hne]; [left; reflexivity|].
  right. destruct code as [|p|p]; try reflexivity.
  repeat (destruct p as [p|p|]; try reflexivity). congruence.
Qed.

Lemma truthy_string (s : jsstring) :
  truthy number_truthy (Some (JStr s)) = true -> s <> [].
Proof. destruct s; [discriminate | discriminate]. Qed.

Lemma generate_for_returns (name : value number) (code : jsstring) :
  generate_for name = Return code ->
  exists s, name = Some (JStr s) /\
            generateProductCode toLowerCase s = Return code.
Proof.
  unfold generate_for. destruct name as [[| | |s| |]|]; try discriminate.
  intros H. exists s. split; [reflexivity | assumption].
Qed.

(** The product [createProduct] builds from the body once every check has
    passed. *)
Definition new_product (body : value number)
    (price_number discount_converted : number) (category_id : object_id)
    (productCode : jsstring) (createdAt updatedAt : date) : product :=
  mk_product (get_field body "name") (get_field body "description")
    price_number
    (if number_truthy discount_converted then discount_converted
     else number_zero)
    (or_else (get_field body "image") (Some (JStr [])))
    (or_else (get_field body "status") (Some (JStr (js "active"))))
    category_id productCode createdAt updatedAt.

(** A call answers 201 only along one path: the four required fields are
    truthy, the category exists, the code is generated from a string name,
    and [insertOne] succeeds on the product built from the body. *)
Lemma create_created (w : world) (body : value number) :
  res_status (snd (createProduct w body)) = 201 ->
  exists s code cat query_id ids1 price_number discount_converted
         category_id ids2 insertedId db',
    get_field body "name" = Some (JStr s) /\ s <> [] /\
    truthy number_truthy (get_field body "description") = true /\
    truthy number_truthy (get_field body "price") = true /\
    truthy number_truthy (get_field body "category") = true /\
    ObjectId_new (get_field body "category") (w_ids w)
      = (Some query_id, ids1) /\
    find_category (w_db w) query_id = Ok (Some cat) /\
    generateProductCode toLowerCase s = Return code /\
    to_number (get_field body "price") = Some price_number /\
    to_number (get_field body "discount") = Some discount_converted /\
    ObjectId_new (get_field body "category") ids1
      = (Some category_id, ids2) /\
    let createdAt := fst (Date_new (w_clock w)) in
    let updatedAt := fst (Date_new (snd (Date_new (w_clock w)))) in
    let product :=
      new_product body price_number discount_converted category_id code
        createdAt updatedAt in
    insert_product (w_db w) product = (Ok insertedId, db') /\
    w_db (fst (createProduct w body)) = db' /\
    exists data,
      res_body (snd (createProduct w body)) = Created data /\
      v_id data = insertedId /\ v_productCode data = code /\
      v_categoryName data = cat_name cat.
Proof.
  unfold createProduct.
  destruct (negb (truthy number_truthy body) || (keys_count body =? 0));
    [discriminate|].
  destruct (truthy number_truthy (get_field body "name")) eqn:Hname;
    [|discriminate].
  destruct (truthy number_truthy (get_field body "description")) eqn:Hdesc;
    [|discriminate].
  destruct (truthy number_truthy (get_field body "price")) eqn:Hprice;
    [|discriminate].
  destruct (truthy number_truthy (get_field body "category")) eqn:Hcat;
    [|discriminate].
  cbn [negb orb].
  destruct (ObjectId_new (get_field body "category") (w_ids w))
    as [[query_id|] ids1] eqn:Hq.
  2: { cbn [snd]. intros H.
       destruct (create_catch_status ObjectIdError); lia. }
  destruct (find_category (w_db w) query_id) as [[cat|]|fcode] eqn:Hfind.
  2: { discriminate. }
  2: { cbn [snd]. intros H.
       destruct (create_catch_status (DatabaseError fcode)); lia. }
  destruct (generate_for (get_field body "name")) as [code|] eqn:Hgen.
  2: { cbn [snd]. intros H.
       destruct (create_catch_status CodeGenerationError); lia. }
  destruct (generate_for_returns _ _ Hgen) as [s [Hs Hcode]].
  destruct (to_number (get_field body "price")) as [price_number|] eqn:Hp.
  2: { cbn [snd]. intros H.
       destruct (create_catch_status ConversionError); lia. }
  destruct (to_number (get_field body "discount"))
    as [discount_converted|] eqn:Hdisc.
  2: { cbn [snd]. intros H.
       destruct (create_catch_status ConversionError); lia. }
  destruct (ObjectId_new (get_field body "category") ids1)
    as [[category_id|] ids2] eqn:Hc.
  2: { cbn [snd]. intros H.
       destruct (create_catch_status ObjectIdError); lia. }
  destruct (Date_new (w_clock w)) as [createdAt clock1] eqn:Hd1.
  cbn [fst snd].
  destruct (Date_new clock1) as [updatedAt clock2] eqn:Hd2.
  cbn [fst snd].
  fold (new_product body price_number discount_converted category_id code
          createdAt updatedAt).
  destruct (insert_product (w_db w)
              (new_product body price_number discount_converted category_id
                 code createdAt updatedAt))
    as [[insertedId|icode] db'] eqn:Hins.
  2: { cbn [snd]. intros H.
       destruct (create_catch_status (DatabaseError icode)); lia. }
  intros _.
  exists s, code, cat, query_id, ids1, price_number, discount_converted,
    category_id, ids2, insertedId, db'.
  rewrite Hs in Hname. apply truthy_string in Hname.
  repeat (split; [first [assumption | reflexivity]|]).
  eexists. cbn [snd res_body]. split; [reflexivity|]. repeat split.
Qed.

(** X11.  A product is created (status 201) only for a name that is a
    non-empty string; the code stored with the inserted document and the
    code sent back are both the code [generateProductCode] returns for
    exactly that name. *)
Theorem created_code (w : world) (body : value number) :
  res_status (snd (createProduct w body)) = 201 ->
  exists s code inserted insertedId data,
    get_field body "name" = Some (JStr s) /\ s <> [] /\
    generateProductCode toLowerCase s = Return code /\
    insert_product (w_db w) inserted
      = (Ok insertedId, w_db (fst (createProduct w body))) /\
    p_name inserted = Some (JStr s) /\ p_productCode inserted = code /\
    res_body (snd (createProduct w body)) = Created data /\
    v_productCode data = code.
Proof.
  intros H201.
  destruct (create_created w body H201)
    as (s & code & cat & qid & ids1 & pn & dn & cid & ids2 & iid & db' & Hs
        & Hne & _ & _ & _ & _ & _ & Hcode & _ & _ & _ & Hins & Hdb & data
        & Hbody & _ & Hd & _).
  exists s, code,
    (new_product body pn dn cid code (fst (Date_new (w_clock w)))
       (fst (Date_new (snd (Date_new (w_clock w)))))), iid, data.
  rewrite Hdb. repeat split; try assumption.
Qed.

Lemma create_catch_not_generator (e : error) :
  e <> CodeGenerationError ->
  res_body (create_catch e) <> ServerError CodeGenerationError.
Proof.
  intros He. unfold create_catch.
  destruct (error_code e) as [[|p|p]|]; cbn [res_body]; try congruence.
  repeat (destruct p as [p|p|]; cbn [res_body]; try congruence).
Qed.

(** X12.  When the name in the body is a string, code generation cannot
    fail inside [createProduct]: the empty string is refused with status
    400 before the generator is called, so the response is never the
    server error of a throwing generator. *)
Theorem create_string_name_no_code_error
    (w : world) (body : value number) (s : jsstring) :
  preserves_nonempty toLowerCase ->
  get_field body "name" = Some (JStr s) ->
  res_body (snd (createProduct w body)) <> ServerError CodeGenerationError /\
  (s = [] -> res_status (snd (createProduct w body)) = 400).
Proof.
  intros Hlow Hs. unfold createProduct. rewrite Hs.
  destruct (negb (truthy number_truthy body) || (keys_count body =? 0));
    [split; [discriminate | reflexivity]|].
  destruct (truthy number_truthy (Some (JStr s))) eqn:Hname;
    [|split; [discriminate | reflexivity]].
  apply truthy_string in Hname.
  assert (exists code, generate_for (Some (JStr s)) = Return code) as [code Hg].
  { destruct (total_on_nonempty toLowerCase s Hlow Hname) as [_ [code Hc]].
    exists code. exact Hc. }
  rewrite Hg. split; [|congruence].
  pose proof create_catch_not_generator as Hcatch.
  destruct (truthy number_truthy (get_field body "description"));
    [|discriminate].
  destruct (truthy number_truthy (get_field body "price")); [|discriminate].
  destruct (truthy number_truthy (get_field body "category"));
    [|discriminate].
  cbn [negb orb].
  destruct (ObjectId_new (get_field body "category") (w_ids w))
    as [[query_id|] ids1]; [|apply Hcatch; discriminate].
  destruct (find_category (w_db w) query_id) as [[cat|]|fcode];
    [|discriminate | apply Hcatch; discriminate].
  destruct (to_number (get_field body "price")) as [price_number|];
    [|apply Hcatch; discriminate].
  destruct (to_number (get_field body "discount")) as [discount_converted|];
    [|apply Hcatch; discriminate].
  destruct (ObjectId_new (get_field body "category") ids1)
    as [[category_id|] ids2]; [|apply Hcatch; discriminate].
  destruct (Date_new (w_clock w)) as [createdAt clock1].
  destruct (Date_new clock1) as [updatedAt clock2].
  match goal with
  | |- context [insert_product ?d ?p] =>
      destruct (insert_product d p) as [[insertedId|icode] db']
  end; [discriminate | apply Hcatch; discriminate].
Qed.

(** X13.  A name that is truthy but not a string (a number, [true], an
    array or an object) passes the required-field check; once the category
    has been found the generator throws, and the call answers 500 without
    inserting anything. *)
Theorem create_non_string_name (w : world) (body : value number)
    (query_id : object_id) (ids1 : id_generator) (cat : category) :
  truthy number_truthy body = true -> keys_count body <> 0 ->
  truthy number_truthy (get_field body "name") = true ->
  (forall s, get_field body "name" <> Some (JStr s)) ->
  truthy number_truthy (get_field body "description") = true ->
  truthy number_truthy (get_field body "price") = true ->
  truthy number_truthy (get_field body "category") = true ->
  ObjectId_new (get_field body "category") (w_ids w) = (Some query_id, ids1) ->
  find_category (w_db w) query_id = Ok (Some cat) ->
  createProduct w body =
    (mk_world (w_db w) ids1 (w_clock w),
     mk_response 500 (ServerError CodeGenerationError)).
Proof.
  intros Hbody Hkeys Hname Hnot Hdesc Hprice Hcat Hq Hfind.
  unfold createProduct.
  rewrite Hbody, Hname, Hdesc, Hprice, Hcat, Hq, Hfind.
  replace (keys_count body =? 0) with false
    by (symmetry; apply Z.eqb_neq; assumption).
  cbn [negb orb].
  destruct (get_field body "name") as [[| | |s| |]|]; try reflexivity.
  exfalso. apply (Hnot s). reflexivity.
Qed.

(** An error that does not come from a call of the database. *)
Definition raised_before_database (e : error) : Prop :=
  match e with
  | DatabaseError _ => False
  | _ => True
  end.

(** X14.  A request that is refused with status 400, or that fails with
    an error raised outside the database calls (by the [ObjectId]
    constructor, by the generator or by [Number]), has written nothing:
    the database is the one the call started with.  Nothing is said of a
    call in which [insertOne] was rejected: the database is then whatever
    [insertOne] left. *)
Theorem create_refusal_keeps_database (w : world) (body : value number) :
  res_status (snd (createProduct w body)) = 400 \/
  (exists e, res_body (snd (createProduct w body)) = ServerError e /\
             raised_before_database e) ->
  w_db (fst (createProduct w body)) = w_db w.
Proof.
  unfold createProduct.
  destruct (negb (truthy number_truthy body) || (keys_count body =? 0));
    [reflexivity|].
  destruct (negb (truthy number_truthy (get_field body "name"))
            || negb (truthy number_truthy (get_field body "description"))
            || negb (truthy number_truthy (get_field body "price"))
            || negb (truthy number_truthy (get_field body "category")));
    [reflexivity|].
  destruct (ObjectId_new (get_field body "category") (w_ids w))
    as [[query_id|] ids1]; [|reflexivity].
  destruct (find_category (w_db w) query_id) as [[cat|]|fcode];
    [|reflexivity | reflexivity].
  destruct (generate_for (get_field body "name")) as [code|]; [|reflexivity].
  destruct (to_number (get_field body "price")) as [price_number|];
    [|reflexivity].
  destruct (to_number (get_field body "discount")) as [discount_converted|];
    [|reflexivity].
  destruct (ObjectId_new (get_field body "category") ids1)
    as [[category_id|] ids2]; [|reflexivity].
  destruct (Date_new (w_clock w)) as [createdAt clock1].
  destruct (Date_new clock1) as [updatedAt clock2].
  match goal with
  | |- context [insert_product ?d ?p] =>
      destruct (insert_product d p) as [[insertedId|icode] db']
  end; cbn [fst snd w_db res_status res_body].
  - intros [H|[e [H _]]]; discriminate.
  - intros [H|[e [H Hraised]]].
    + destruct (create_catch_status (DatabaseError icode)) as [Hs|Hs];
        rewrite Hs in H; discriminate.
    + exfalso. unfold create_catch in H. cbn [error_code] in H.
      destruct icode as [[|p|p]|]; cbn [res_body] in H;
        try (injection H as <-; exact Hraised).
      repeat (destruct p as [p|p|]; cbn [res_body] in H;
              try (injection H as <-; exact Hraised); try discriminate).
Qed.

(** X15.  A product is created only when [name], [description], [price]
    and [category] are all truthy (a price of [0] or an empty description
    is refused like a missing one) and the category is found in the
    [categories] collection; its name is sent back as [categoryName]. *)
Theorem created_requires (w : world) (body : value number) :
  res_status (snd (createProduct w body)) = 201 ->
  truthy number_truthy (get_field body "name") = true /\
  truthy number_truthy (get_field body "description") = true /\
  truthy number_truthy (get_field body "price") = true /\
  truthy number_truthy (get_field body "category") = true /\
  exists query_id ids1 cat data,
    ObjectId_new (get_field body "category") (w_ids w)
      = (Some query_id, ids1) /\
    find_category (w_db w) query_id = Ok (Some cat) /\
    res_body (snd (createProduct w body)) = Created data /\
    v_categoryName data = cat_name cat.
Proof.
  intros H201.
  destruct (create_created w body H201)
    as (s & code & cat & qid & ids1 & pn & dn & cid & ids2 & iid & db' & Hs
        & Hne & Hdesc & Hprice & Hcat & Hq & Hfind & _ & _ & _ & _ & _ & _
        & data & Hbody & _ & _ & Hname).
  repeat split; try assumption.
  - rewrite Hs. destruct s; [congruence | reflexivity].
  - exists qid, ids1, cat, data. repeat split; assumption.
Qed.

End CreateProduct.

Arguments mk_world {id_generator clock database} w_db w_ids w_clock.
Arguments w_db {id_generator clock database} w.
Arguments w_ids {id_generator clock database} w.
Arguments w_clock {id_generator clock database} w.
Arguments mk_category {number object_id} cat_id cat_name.
Arguments cat_name {number object_id} c.
Arguments p_name {number object_id date} p.
Arguments p_productCode {number object_id date} p.
Arguments v_productCode {number object_id} p.
Arguments v_categoryName {number object_id} p.
Arguments mk_response {number object_id} res_status res_body.
Arguments res_status {number object_id} r.
Arguments res_body {number object_id} r.
Arguments Message {number object_id} message.
Arguments ServerError {number object_id} e.
Arguments Created {number object_id} data.

(** ** A small catalogue *)

(** An instance of what [createProduct] is parameterised by, with integers
    for numbers, hexadecimal strings for object ids, a counter for the
    clock and a list of products for the database; every category id is
    found. *)
Module Shop.

Definition number_truthy (x : Z) : bool := negb (x =? 0).

Definition to_number (v : value Z) : option Z :=
  match v with
  | Some (JNum x) => Some x
  | Some (JObj _) => None
  | _ => Some 0
  end.

Definition final_price (price discount : Z) : Z :=
  price * (100 - discount) / 100.

Definition ObjectId_new (v : value Z) (g : unit) : option jsstring * unit :=
  match v with
  | Some (JStr s) =>
      if Nat.eqb (List.length s) 24 then (Some s, g) else (None, g)
  | _ => (None, g)
  end.

Definition ObjectId_isValid (v : value Z) : bool :=
  match v with
  | Some (JStr s) => Nat.eqb (List.length s) 24
  | _ => false
  end.

Definition Date_new (c : Z) : Z * Z := (c, c + 1).

Definition database : Type := list (product Z jsstring Z).

Definition find_category (db : database) (id : jsstring)
  : outcome (option (category Z jsstring)) :=
  Ok (Some (mk_category id (Some (JStr (js "Books"))))).

Definition insert_product (db : database) (p : product Z jsstring Z)
  : outcome jsstring * database :=
  (Ok (js "65f0c0ffee0123456789abcd"), p :: db).

Definition createProduct :=
  createProduct toLowerCase_latin Z number_truthy 0 to_number final_price
    jsstring unit ObjectId_new Z Z Date_new database find_category
    insert_product.

Definition empty_world : world unit Z database := mk_world [] tt 0.

Definition body (name : json Z) : value Z :=
  Some (JObj [(js "name", name);
              (js "description", JStr (js "A book of maps"));
              (js "price", JNum 12);
              (js "category", JStr (js "0123456789abcdef01234567"))]).

End Shop.

Example shop_create_atlas :
  snd (Shop.createProduct Shop.empty_world (Shop.body (JStr (js "Atlas"))))
  = mk_response 201
      (Created
         (mk_view Z jsstring (js "65f0c0ffee0123456789abcd")
            (Some (JStr (js "Atlas"))) (Some (JStr (js "A book of maps")))
            12 12 0 (Some (JStr [])) (Some (JStr (js "active")))
            (js "0123456789abcdef01234567") (Some (JStr (js "Books")))
            (slice (sha1_hex (js "Atlas")) 0 8 ++ js "-0atas1"))).
Proof. vm_compute. reflexivity. Qed.

(** A price that [Number] cannot convert: the call fails with status 500
    after the category lookup and before the insertion. *)
Example shop_create_unconvertible_price :
  Shop.createProduct Shop.empty_world
    (Some (JObj [(js "name", JStr (js "Atlas"));
                 (js "description", JStr (js "A book of maps"));
                 (js "price", JObj [(js "toString", JNum 1)]);
                 (js "category", JStr (js "0123456789abcdef01234567"))]))
  = (Shop.empty_world, mk_response 500 (ServerError ConversionError)).
Proof. vm_compute. reflexivity. Qed.

Lemma created_code_witness :
  exists s code inserted insertedId data,
    get_field (Shop.body (JStr (js "Atlas"))) "name" = Some (JStr s) /\
    s <> [] /\
    generateProductCode toLowerCase_latin s = Return code /\
    Shop.insert_product (w_db Shop.empty_world) inserted
      = (Ok insertedId,
         w_db (fst (Shop.createProduct Shop.empty_world
                      (Shop.body (JStr (js "Atlas")))))) /\
    p_name inserted = Some (JStr s) /\ p_productCode inserted = code /\
    res_body (snd (Shop.createProduct Shop.empty_world
                     (Shop.body (JStr (js "Atlas"))))) = Created data /\
    v_productCode data = code.
Proof.
  apply (created_code toLowerCase_latin Z Shop.number_truthy 0 Shop.to_number
           Shop.final_price jsstring unit Shop.ObjectId_new Z Z Shop.Date_new
           Shop.database Shop.find_category Shop.insert_product
           Shop.empty_world (Shop.body (JStr (js "Atlas")))).
  vm_compute. reflexivity.
Defined.

Lemma create_string_name_no_code_error_witness :
  res_body (snd (Shop.createProduct Shop.empty_world
                   (Shop.body (JStr (js "Atlas")))))
    <> ServerError CodeGenerationError /\
  (js "Atlas" = [] ->
   res_status (snd (Shop.createProduct Shop.empty_world
                      (Shop.body (JStr (js "Atlas"))))) = 400).
Proof.
  apply (create_string_name_no_code_error toLowerCase_latin Z
           Shop.number_truthy 0 Shop.to_number Shop.final_price jsstring unit
           Shop.ObjectId_new Z Z Shop.Date_new Shop.database
           Shop.find_category Shop.insert_product Shop.empty_world
           (Shop.body (JStr (js "Atlas"))) (js "Atlas")
           toLowerCase_latin_nonempty).
  vm_compute. reflexivity.
Defined.

Lemma create_non_string_name_witness :
  Shop.createProduct Shop.empty_world (Shop.body (JNum 7)) =
    (mk_world (w_db Shop.empty_world) tt (w_clock Shop.empty_world),
     mk_response 500 (ServerError CodeGenerationError)).
Proof.
  apply (create_non_string_name toLowerCase_latin Z Shop.number_truthy 0
           Shop.to_number Shop.final_price jsstring unit Shop.ObjectId_new
           Z Z Shop.Date_new Shop.database Shop.find_category
           Shop.insert_product Shop.empty_world (Shop.body (JNum 7))
           (js "0123456789abcdef01234567") tt
           (mk_category (js "0123456789abcdef01234567")
              (Some (JStr (js "Books"))))).
  - reflexivity.
  - vm_compute. discriminate.
  - vm_compute. reflexivity.
  - intros s. vm_compute. discriminate.
  - vm_compute. reflexivity.
  - vm_compute. reflexivity.
  - vm_compute. reflexivity.
  - vm_compute. reflexivity.
  - reflexivity.
Defined.

Lemma create_refusal_keeps_database_witness :
  w_db (fst (Shop.createProduct Shop.empty_world (Shop.body (JStr []))))
  = w_db Shop.empty_world.
Proof.
  apply (create_refusal_keeps_database toLowerCase_latin Z Shop.number_truthy
           0 Shop.to_number Shop.final_price jsstring unit Shop.ObjectId_new
           Z Z Shop.Date_new Shop.database Shop.find_category
           Shop.insert_product Shop.empty_world (Shop.body (JStr []))).
  left. vm_compute. reflexivity.
Defined.

Lemma created_requires_witness :
  truthy Shop.number_truthy
    (get_field (Shop.body (JStr (js "Atlas"))) "name") = true /\
  truthy Shop.number_truthy
    (get_field (Shop.body (JStr (js "Atlas"))) "description") = true /\
  truthy Shop.number_truthy
    (get_field (Shop.body (JStr (js "Atlas"))) "price") = true /\
  truthy Shop.number_truthy
    (get_field (Shop.body (JStr (js "Atlas"))) "category") = true /\
  exists query_id ids1 cat data,
    Shop.ObjectId_new (get_field (Shop.body (JStr (js "Atlas"))) "category")
      (w_ids Shop.empty_world) = (Some query_id, ids1) /\
    Shop.find_category (w_db Shop.empty_world) query_id = Ok (Some cat) /\
    res_body (snd (Shop.createProduct Shop.empty_world
                     (Shop.body (JStr (js "Atlas"))))) = Created data /\
    v_categoryName data = cat_name cat.
Proof.
  apply (created_requires toLowerCase_latin Z Shop.number_truthy 0
           Shop.to_number Shop.final_price jsstring unit Shop.ObjectId_new
           Z Z Shop.Date_new Shop.database Shop.find_category
           Shop.insert_product Shop.empty_world
           (Shop.body (JStr (js "Atlas")))).
  vm_compute. reflexivity.
Defined.

(** * [updateProduct]: from the request to the database call *)

Section UpdateProduct.

Variable number : Type.
Variable number_truthy : number -> bool.
(** [Number(v)]; [None] when the conversion throws. *)
Variable to_number : value number -> option number.

Variable object_id : Type.
Variable id_generator : Type.
Variable ObjectId_new :
  value number -> id_generator -> option object_id * id_generator.
(** [ObjectId.isValid(v)] *)
Variable ObjectId_isValid : value number -> bool.

Variable date : Type.
Variable clock : Type.
Variable Date_new : clock -> date * clock.

Variable database : Type.

(** What a property of [allowed] can hold once the handler has converted
    it: a value of the body as it came, a number, an object id or a
    date. *)
Inductive field_value : Type :=
| FJson (v : json number)
| FNumber (x : number)
| FObjectId (id : object_id)
| FDate (d : date).

(** Where the first part of the handler ends: with a response, or with the
    arguments of [findOneAndUpdate] ([_id] of the filter and the [$set]
    document, its properties in insertion order). *)
Inductive update_step : Type :=
| Respond (r : response number object_id)
| FindOneAndUpdate (query_id : object_id) (set : list (string * field_value)).

(** [if (allowed.k !== undefined) allowed.k = Number(allowed.k)]: the
    property afterwards ([None] inside for [undefined]), or [None] when
    [Number] throws. *)
Definition convert_number (v : value number) : option (option field_value) :=
  match v with
  | None => Some None
  | Some j =>
      match to_number (Some j) with
      | Some x => Some (Some (FNumber x))
      | None => None
      end
  end.

(** [allowed] given the converted [price], [discount] and [category]: the
    seven properties in the order of the object literal, [None] for
    [undefined]. *)
Definition allowed_fields (body : value number)
    (price discount category : option field_value)
  : list (string * option field_value) :=
  [ ("status"%string, option_map FJson (get_field body "status"));
    ("description"%string, option_map FJson (get_field body "description"));
    ("discount"%string, discount);
    ("name"%string, option_map FJson (get_field body "name"));
    ("price"%string, price);
    ("image"%string, option_map FJson (get_field body "image"));
    ("category"%string, category) ].

(** [Object.keys(allowed).forEach(key => allowed[key] === undefined &&
    delete allowed[key])] *)
Fixpoint delete_undefined (fields : list (string * option field_value))
  : list (string * field_value) :=
  match fields with
  | [] => []
  | (k, Some v) :: rest => (k, v) :: delete_undefined rest
  | (k, None) :: rest => delete_undefined rest
  end.

(** The handler from its first line to the call of [findOneAndUpdate];
    [id] is [req.params.id]. *)
Definition updateProduct_request (w : world id_generator clock database)
    (id : jsstring) (body : value number)
  : world id_generator clock database * update_step :=
  if negb (ObjectId_isValid (Some (JStr id))) then
    (w, Respond (mk_response 400 (Message "Invalid product ID format")))
  else if negb (truthy number_truthy body) || (keys_count body =? 0) then
    (w, Respond (mk_response 400 (Message "Request body is required")))
  else
    match convert_number (get_field body "price") with
    | None => (w, Respond (mk_response 500 (ServerError ConversionError)))
    | Some price =>
    match convert_number (get_field body "discount") with
    | None => (w, Respond (mk_response 500 (ServerError ConversionError)))
    | Some discount =>
    let after_category (category : option field_value) (ids1 : id_generator)
      : world id_generator clock database * update_step :=
      match delete_undefined (allowed_fields body price discount category) with
      | [] =>
          (mk_world (w_db w) ids1 (w_clock w),
           Respond (mk_response 400 (Message "No valid fields to update")))
      | set =>
          let (updatedAt, clock1) := Date_new (w_clock w) in
          match ObjectId_new (Some (JStr id)) ids1 with
          | (None, ids2) =>
              (mk_world (w_db w) ids2 clock1,
               Respond (mk_response 500 (ServerError ObjectIdError)))
          | (Some query_id, ids2) =>
              (mk_world (w_db w) ids2 clock1,
               FindOneAndUpdate query_id
                 (set ++ [("updatedAt"%string, FDate updatedAt)]))
          end
      end in
    match get_field body "category" with
    | None => after_category None (w_ids w)
    | Some c =>
        if ObjectId_isValid (Some c) then
          match ObjectId_new (Some c) (w_ids w) with
          | (None, ids1) =>
              (mk_world (w_db w) ids1 (w_clock w),
               Respond (mk_response 500 (ServerError ObjectIdError)))
          | (Some category_id, ids1) =>
              after_category (Some (FObjectId category_id)) ids1
          end
        else
          (w, Respond (mk_response 400 (Message "Invalid category ID format")))
    end end end.

(** The properties [updateProduct] can write. *)
Definition updatable : list string :=
  ["status"; "description"; "discount"; "name"; "price"; "image";
   "category"; "updatedAt"]%string.

Lemma delete_undefined_keys fields k v :
  In (k, v) (delete_undefined fields) -> In (k, Some v) fields.
Proof.
  induction fields as [|[k' [v'|]] rest IH]; simpl; [tauto| |].
  - intros [H|H]; [left; congruence | right; apply IH; assumption].
  - intros H. right. apply IH. assumption.
Qed.

Lemma delete_undefined_NoDup fields :
  NoDup (map fst fields) -> NoDup (map fst (delete_undefined fields)).
Proof.
  induction fields as [|[k [v|]] rest IH]; simpl; intros Hnd.
  - constructor.
  - apply NoDup_cons_iff in Hnd. destruct Hnd as [Hk Hnd].
    constructor; [|apply IH; assumption].
    intros Hin. apply Hk. apply in_map_iff in Hin.
    destruct Hin as [[k' v'] [Hfst Hin]]. simpl in Hfst. subst k'.
    apply delete_undefined_keys in Hin.
    apply in_map_iff. exists (k, Some v'). split; [reflexivity | assumption].
  - apply NoDup_cons_iff in Hnd. apply IH. tauto.
Qed.

Lemma delete_undefined_In fields k v :
  In (k, Some v) fields -> In (k, v) (delete_undefined fields).
Proof.
  induction fields as [|[k' [v'|]] rest IH]; simpl; [tauto| |].
  - intros [H|H]; [left; congruence | right; apply IH; assumption].
  - intros [H|H]; [discriminate | apply IH; assumption].
Qed.

Lemma allowed_fields_keys body price discount category :
  map fst (allowed_fields body price discount category)
  = ["status"; "description"; "discount"; "name"; "price"; "image";
     "category"]%string.
Proof. reflexivity. Qed.

(** What [updateProduct_request] hands to [findOneAndUpdate]. *)
Lemma update_set_inv w id body w' query_id set :
  updateProduct_request w id body = (w', FindOneAndUpdate query_id set) ->
  exists price discount category updatedAt,
    convert_number (get_field body "price") = Some price /\
    convert_number (get_field body "discount") = Some discount /\
    delete_undefined (allowed_fields body price discount category) <> [] /\
    set = delete_undefined (allowed_fields body price discount category)
          ++ [("updatedAt"%string, FDate updatedAt)].
Proof.
  unfold updateProduct_request.
  destruct (negb (ObjectId_isValid (Some (JStr id)))); [discriminate|].
  destruct (negb (truthy number_truthy body) || (keys_count body =? 0));
    [discriminate|].
  destruct (convert_number (get_field body "price")) as [price|];
    [|discriminate].
  destruct (convert_number (get_field body "discount")) as [discount|];
    [|discriminate].
  assert (forall category ids1,
            match delete_undefined
                    (allowed_fields body price discount category) with
            | [] =>
                (mk_world (w_db w) ids1 (w_clock w),
                 Respond (mk_response 400 (Message "No valid fields to update")))
            | p :: l =>
                let (updatedAt, clock1) := Date_new (w_clock w) in
                match ObjectId_new (Some (JStr id)) ids1 with
                | (None, ids2) =>
                    (mk_world (w_db w) ids2 clock1,
                     Respond (mk_response 500 (ServerError ObjectIdError)))
                | (Some query_id, ids2) =>
                    (mk_world (w_db w) ids2 clock1,
                     FindOneAndUpdate query_id
                       ((p :: l) ++ [("updatedAt"%string, FDate updatedAt)]))
                end
            end = (w', FindOneAndUpdate query_id set) ->
            exists updatedAt,
              delete_undefined (allowed_fields body price discount category)
                <> [] /\
              set = delete_undefined
                      (allowed_fields body price discount category)
                    ++ [("updatedAt"%string, FDate updatedAt)]) as Hafter.
  { intros category ids1.
    destruct (delete_undefined (allowed_fields body price discount category))
      as [|p l]; [discriminate|].
    destruct (Date_new (w_clock w)) as [updatedAt clock1].
    destruct (ObjectId_new (Some (JStr id)) ids1) as [[q|] ids2];
      [|discriminate].
    intros H. injection H. intros Hset _ _. exists updatedAt.
    split; [discriminate | symmetry; exact Hset]. }
  destruct (get_field body "category") as [c|] eqn:Hc.
  - destruct (ObjectId_isValid (Some c)); [|discriminate].
    destruct (ObjectId_new (Some c) (w_ids w)) as [[oid|] ids1];
      [|discriminate].
    intros H. apply Hafter in H. destruct H as [updatedAt [Hne Hset]].
    exists price, discount, (Some (FObjectId oid)), updatedAt.
    repeat split; try reflexivity; assumption.
  - intros H. apply Hafter in H. destruct H as [updatedAt [Hne Hset]].
    exists price, discount, None, updatedAt.
    repeat split; try reflexivity; assumption.
Qed.

(** X16.  Whatever the body holds, the [$set] document that reaches the
    database has only properties among [status], [description],
    [discount], [name], [price], [image], [category] and [updatedAt], each
    at most once; it always ends with [updatedAt] and has at least one
    other property.  [productCode] is never written: a renamed product
    keeps the code generated from its first name. *)
Theorem update_writes_only_updatable w id body w' query_id set :
  updateProduct_request w id body = (w', FindOneAndUpdate query_id set) ->
  incl (map fst set) updatable /\
  NoDup (map fst set) /\
  ~ In "productCode"%string (map fst set) /\
  exists rest updatedAt,
    set = rest ++ [("updatedAt"%string, FDate updatedAt)] /\ rest <> [].
Proof.
  intros H. destruct (update_set_inv _ _ _ _ _ _ H)
    as (price & discount & category & updatedAt & _ & _ & Hne & ->).
  assert (incl (map fst (delete_undefined
                           (allowed_fields body price discount category)))
               ["status"; "description"; "discount"; "name"; "price";
                "image"; "category"]%string) as Hincl.
  { intros k Hk. apply in_map_iff in Hk. destruct Hk as [[k' v] [<- Hin]].
    apply delete_undefined_keys in Hin.
    rewrite <- (allowed_fields_keys body price discount category).
    apply in_map_iff. exists (k', Some v). split; [reflexivity | assumption]. }
  assert (NoDup (map fst (delete_undefined
                            (allowed_fields body price discount category))))
    as Hnd.
  { apply delete_undefined_NoDup. rewrite allowed_fields_keys.
    repeat constructor; simpl; intuition discriminate. }
  rewrite map_app. cbn [map fst].
  repeat split.
  - intros k Hk. apply in_app_or in Hk. destruct Hk as [Hk|Hk].
    + apply Hincl in Hk. unfold updatable. simpl in *. intuition.
    + simpl in Hk. unfold updatable. simpl. intuition.
  - apply NoDup_app; [assumption | repeat constructor; simpl; tauto |].
    intros k Hk [<-|[]]. apply Hincl in Hk.
    simpl in Hk. intuition discriminate.
  - intros Hin. apply in_app_or in Hin. destruct Hin as [Hin|Hin].
    + apply Hincl in Hin. simpl in Hin. intuition discriminate.
    + simpl in Hin. intuition discriminate.
  - exists (delete_undefined (allowed_fields body price discount category)),
      updatedAt.
    split; [reflexivity | assumption].
Qed.

(** X17.  A body that has none of the seven updatable properties (for
    instance one that only names [productCode]) is refused with status 400
    and "No valid fields to update". *)
Theorem update_without_updatable_field w id body :
  ObjectId_isValid (Some (JStr id)) = true ->
  truthy number_truthy body = true -> keys_count body <> 0 ->
  (forall k, In k ["status"; "description"; "discount"; "name"; "price";
                   "image"; "category"]%string ->
             get_field body k = None) ->
  snd (updateProduct_request w id body)
  = Respond (mk_response 400 (Message "No valid fields to update")).
Proof.
  intros Hid Hbody Hkeys Hnone. unfold updateProduct_request.
  rewrite Hid, Hbody.
  replace (keys_count body =? 0) with false
    by (symmetry; apply Z.eqb_neq; assumption).
  cbn [negb orb]. unfold allowed_fields.
  rewrite !Hnone by (simpl; tauto). reflexivity.
Qed.

(** X18.  On update nothing is checked about [status], [description],
    [name] and [image]: whatever value the body gives them ([null] and the
    empty string included) is written as it is; [price] and [discount] are
    written as the numbers [Number] makes of them. *)
Theorem update_copies_unchecked w id body w' query_id set k v :
  updateProduct_request w id body = (w', FindOneAndUpdate query_id set) ->
  get_field body k = Some v ->
  (In k ["status"; "description"; "name"; "image"]%string ->
   In (k, FJson v) set) /\
  (In k ["price"; "discount"]%string ->
   exists x, to_number (Some v) = Some x /\ In (k, FNumber x) set).
Proof.
  intros H Hk. destruct (update_set_inv _ _ _ _ _ _ H)
    as (price & discount & category & updatedAt & Hp & Hd & _ & ->).
  split; intros Hin.
  - apply in_or_app. left. apply delete_undefined_In.
    unfold allowed_fields. simpl in Hin.
    repeat (destruct Hin as [<-|Hin]; [rewrite Hk; simpl; tauto|]).
    contradiction.
  - simpl in Hin. destruct Hin as [<-|[<-|[]]].
    + rewrite Hk in Hp. unfold convert_number in Hp.
      destruct (to_number (Some v)) as [x|]; [|discriminate].
      injection Hp as <-. exists x. split; [reflexivity|].
      apply in_or_app. left. apply delete_undefined_In.
      unfold allowed_fields. simpl. tauto.
    + rewrite Hk in Hd. unfold convert_number in Hd.
      destruct (to_number (Some v)) as [x|]; [|discriminate].
      injection Hd as <-. exists x. split; [reflexivity|].
      apply in_or_app. left. apply delete_undefined_In.
      unfold allowed_fields. simpl. tauto.
Qed.

End UpdateProduct.

Arguments FJson {number object_id date} v.
Arguments FNumber {number object_id date} x.
Arguments FObjectId {number object_id date} id.
Arguments FDate {number object_id date} d.
Arguments Respond {number object_id date} r.
Arguments FindOneAndUpdate {number object_id date} query_id set.

Definition shop_updateProduct_request :=
  updateProduct_request Z Shop.number_truthy Shop.to_number jsstring unit
    Shop.ObjectId_new Shop.ObjectId_isValid Z Z Shop.Date_new Shop.database.

Definition atlas_id : jsstring := js "65f0c0ffee0123456789abcd".

Example shop_rename_atlas :
  shop_updateProduct_request Shop.empty_world atlas_id
    (Some (JObj [(js "name", JStr (js "Atlas, 2nd edition"));
                 (js "productCode", JStr (js "X"))]))
  = (mk_world [] tt 1,
     FindOneAndUpdate atlas_id
       [("name"%string, FJson (JStr (js "Atlas, 2nd edition")));
        ("updatedAt"%string, FDate 0)]).
Proof. vm_compute. reflexivity. Qed.

(** A price that [Number] cannot convert: the call fails with status 500
    before anything is looked up or written. *)
Example shop_update_unconvertible_price :
  shop_updateProduct_request Shop.empty_world atlas_id
    (Some (JObj [(js "price", JObj [(js "toString", JNum 1)])]))
  = (Shop.empty_world, Respond (mk_response 500 (ServerError ConversionError))).
Proof. vm_compute. reflexivity. Qed.

Lemma update_writes_only_updatable_witness :
  incl (map fst [("name"%string, @FJson Z jsstring Z (JStr (js "Atlas, 2nd edition")));
                 ("updatedAt"%string, FDate 0)]) updatable /\
  NoDup (map fst [("name"%string, @FJson Z jsstring Z (JStr (js "Atlas, 2nd edition")));
                  ("updatedAt"%string, FDate 0)]) /\
  ~ In "productCode"%string
       (map fst [("name"%string, @FJson Z jsstring Z (JStr (js "Atlas, 2nd edition")));
                 ("updatedAt"%string, FDate 0)]) /\
  exists rest updatedAt,
    [("name"%string, @FJson Z jsstring Z (JStr (js "Atlas, 2nd edition")));
     ("updatedAt"%string, FDate 0)]
    = rest ++ [("updatedAt"%string, FDate updatedAt)] /\ rest <> [].
Proof.
  apply (update_writes_only_updatable Z Shop.number_truthy Shop.to_number
           jsstring unit Shop.ObjectId_new Shop.ObjectId_isValid Z Z
           Shop.Date_new Shop.database Shop.empty_world atlas_id
           (Some (JObj [(js "name", JStr (js "Atlas, 2nd edition"));
                        (js "productCode", JStr (js "X"))]))
           (mk_world [] tt 1) atlas_id).
  vm_compute. reflexivity.
Defined.

Lemma update_without_updatable_field_witness :
  snd (shop_updateProduct_request Shop.empty_world atlas_id
         (Some (JObj [(js "productCode", JStr (js "X"))])))
  = Respond (mk_response 400 (Message "No valid fields to update")).
Proof.
  apply (update_without_updatable_field Z Shop.number_truthy Shop.to_number
           jsstring unit Shop.ObjectId_new Shop.ObjectId_isValid Z Z
           Shop.Date_new Shop.database Shop.empty_world atlas_id
           (Some (JObj [(js "productCode", JStr (js "X"))]))).
  - reflexivity.
  - reflexivity.
  - vm_compute. discriminate.
  - intros k Hk. simpl in Hk.
    repeat (destruct Hk as [<-|Hk]; [vm_compute; reflexivity|]).
    contradiction.
Defined.

Lemma update_copies_unchecked_witness :
  (In "name"%string ["status"; "description"; "name"; "image"]%string ->
   In ("name"%string, @FJson Z jsstring Z JNull)
      [("name"%string, FJson JNull); ("updatedAt"%string, FDate 0)]) /\
  (In "name"%string ["price"; "discount"]%string ->
   exists x,
     Shop.to_number (Some JNull) = Some x /\
     In ("name"%string, @FNumber Z jsstring Z x)
        [("name"%string, FJson JNull); ("updatedAt"%string, FDate 0)]).
Proof.
  apply (update_copies_unchecked Z Shop.number_truthy Shop.to_number
           jsstring unit Shop.ObjectId_new Shop.ObjectId_isValid Z Z
           Shop.Date_new Shop.database Shop.empty_world atlas_id
           (Some (JObj [(js "name", JNull)]))
           (mk_world [] tt 1) atlas_id).
  - vm_compute. reflexivity.
  - vm_compute. reflexivity.
Defined.
